(** * Admin control-plane handlers of the object-storage server

    A shallow embedding of [cmd/admin-handlers.go]: the HTTP handlers of the
    administrative API (credentials, lock inventory, heal workflows and the
    two-phase configuration commit), together with the properties the
    specification states about them.

    The handlers are translated as computations in a small state monad.
    The state is the process-wide globals the handlers touch, the log of
    every call that leaves the handler (peers, storage engine, lock manager,
    disks, logger) and the response writer of the request being served.
    Everything the handlers call that lives outside the translated file is
    gathered in the record [Env]; a call that can observe server or cluster
    state receives the log of the calls made so far, so that no assumption is
    made on what such a call depends on. *)

From Stdlib Require Import ZArith Lia Ascii String.
From stdpp Require Import base decidable option list gmap strings.
From stdpp Require Import sorting.

Open Scope string_scope.
Open Scope list_scope.
Open Scope Z_scope.

(** ** Data model *)

(** Constants of the file (lines 31-49). *)
Definition minioAdminOpHeader : string := "X-Minio-Operation".

Definition mgmtBucket : string := "bucket".
Definition mgmtObject : string := "object".
Definition mgmtPrefix : string := "prefix".
Definition mgmtLockDuration : string := "duration".
Definition mgmtDelimiter : string := "delimiter".
Definition mgmtMarker : string := "marker".
Definition mgmtMaxKey : string := "max-key".
Definition mgmtDryRun : string := "dry-run".

(** [minioConfigTmpFormat = "config-%s.json"] applied to its one argument. *)
Definition minioConfigTmpFormat (uuid : string) : string :=
  "config-" +:+ uuid +:+ ".json".

(** The reserved bucket and the configuration file locked by the commit
    phase ("Take a lock on minio/config.json", line 803). *)
Definition minioReservedBucket : string := "minio".
Definition globalMinioConfigFile : string := "config.json".

(** API error codes.  The constructors are the codes the file names; every
    other code of the taxonomy is [ErrCode n]. *)
Inductive APIErrorCode : Type :=
| ErrNone
| ErrInvalidBucketName
| ErrInvalidObjectName
| ErrInvalidDuration
| ErrInvalidMaxKeys
| ErrInternalError
| ErrServerNotInitialized
| ErrNotImplemented
| ErrMethodNotAllowed
| ErrMalformedXML
| ErrAdminConfigNoQuorum
| ErrCode (n : nat).

#[global] Instance APIErrorCode_eq_dec : EqDecision APIErrorCode.
Proof. solve_decision. Defined.

(** Go error values: the sentinel the file names (line 712) and any other
    error, identified by its message.  A Go [error] is [option Err], with
    [None] for [nil]. *)
Inductive Err : Type :=
| errXLWriteQuorum
| errorString (msg : string).

#[global] Instance Err_eq_dec : EqDecision Err.
Proof. solve_decision. Defined.

Abbreviation error := (option Err).

(** A Go pair [(value, error)]. *)
Inductive result (A : Type) : Type :=
| Ok (a : A)
| Error (e : Err).
Arguments Ok {A} a.
Arguments Error {A} e.

Definition bytes : Type := list Byte.byte.

(** [time.Duration]: a signed count of nanoseconds. *)
Definition Duration : Type := Z.

(** Handles on collaborators that the handlers only pass around. *)
Definition ObjectLayer : Type := nat.
Definition StorageDisks : Type := nat.
Definition ListObjectsInfo : Type := list string.

Record adminPeer : Type := mkAdminPeer {
  addr : string;
  cmdRunner : nat
}.

#[global] Instance adminPeer_eq_dec : EqDecision adminPeer.
Proof. solve_decision. Defined.

Record credential : Type := mkCredential {
  AccessKey : string;
  SecretKey : string
}.

(** [setCredsReq] (lines 124-127). *)
Record setCredsReq : Type := mkSetCredsReq {
  Username : string;
  Password : string
}.

(** A lock record as the listing returns it; the handlers read [Bucket] and
    [Object] only. *)
Record VolumeLockInfo : Type := mkVolumeLockInfo {
  Bucket : string;
  Object : string;
  LocksOnObject : Z;
  LockDetails : list string
}.

(** [nodeSummary] and [setConfigResult] (lines 720-729). *)
Record nodeSummary : Type := mkNodeSummary {
  Name : string;
  ErrSet : bool;
  ErrMsg : string
}.

Record setConfigResult : Type := mkSetConfigResult {
  NodeResults : list nodeSummary;
  Status : bool
}.

(** The signal the file sends to the peers. *)
Inductive serviceSignal : Type :=
| serviceRestart.

(** [url.Values] is [map[string][]string]. *)
Abbreviation Values := (gmap string (list string)).

(** [Values.Get]: the first value of the key, the empty string when the key
    is absent or has no value. *)
Definition Get (vars : Values) (key : string) : string :=
  match vars !! key with
  | Some (v :: _) => v
  | _ => ""
  end.

(** What a handler reads of [*http.Request]: the material the signature
    check looks at, the parsed query and the outcome of reading the body. *)
Record Request : Type := mkRequest {
  Header : list (string * string);
  URL_Query : Values;
  Body : result bytes
}.

Definition withQuery (r : Request) (q : Values) : Request :=
  {| Header := Header r; URL_Query := q; Body := Body r |}.

(** What a handler writes to its [http.ResponseWriter]. *)
Inductive Response : Type :=
| ErrorResponse (code : APIErrorCode)
| SuccessResponseHeadersOnly
| SuccessResponseJSON (b : bytes)
| SuccessResponseXML (b : bytes)
| WriteHeader (status : Z).

(** Every call that leaves the handler, with its arguments and, when it
    returns one, its result. *)
Inductive Event : Type :=
| EvErrorIf (err : Err) (msg : string)
| EvUpdateCredsOnPeers (creds : credential) (res : list (string * error))
| EvSetCredential (creds : credential)
| EvSaveConfig (res : error)
| EvListPeerLocksInfo (peers : list adminPeer) (bucket prefix : string)
    (duration : Duration) (res : result (list VolumeLockInfo))
| EvForceUnlock (bucket object : string)
| EvListObjectsHeal (objLayer : ObjectLayer)
    (bucket prefix marker delimiter : string) (maxKey : Z)
    (res : result ListObjectsInfo)
| EvCheckBucketExist (bucket : string) (objLayer : ObjectLayer) (res : error)
| EvGetObjectInfo (objLayer : ObjectLayer) (bucket object : string) (res : error)
| EvHealBucket (objLayer : ObjectLayer) (bucket : string) (res : error)
| EvHealObject (objLayer : ObjectLayer) (bucket object : string) (res : error)
| EvInitStorageDisks (endpoints : list string) (res : result StorageDisks)
| EvHealFormatXL (disks : StorageDisks) (res : error)
| EvNewXLObjects (disks : StorageDisks) (res : result ObjectLayer)
| EvSetGlobalObjectAPI (newObjectAPI : ObjectLayer)
| EvShutdown (objLayer : ObjectLayer)
| EvReInitPeerDisks (peers : list adminPeer)
| EvMustGetUUID (res : string)
| EvWriteTmpConfig (peer : adminPeer) (tmpFileName : string) (configBytes : bytes)
    (res : error)
| EvCommitConfig (peer : adminPeer) (tmpFileName : string) (res : error)
| EvNSLock (volume path : string)
| EvNSUnlock (volume path : string)
| EvSendServiceCmd (peers : list adminPeer) (sig : serviceSignal).

(** The globals of the process, the log of calls and the response writer. *)
Record World : Type := mkWorld {
  globalObjectAPI : option ObjectLayer;
  globalIsXL : bool;
  globalIsEnvCreds : bool;
  globalAdminPeers : list adminPeer;
  globalEndpoints : list string;
  history : list Event;
  w : list Response
}.

Definition log (e : Event) (σ : World) : World :=
  {| globalObjectAPI := globalObjectAPI σ; globalIsXL := globalIsXL σ;
     globalIsEnvCreds := globalIsEnvCreds σ;
     globalAdminPeers := globalAdminPeers σ;
     globalEndpoints := globalEndpoints σ;
     history := history σ ++ [e]; w := w σ |}.

Definition write (resp : Response) (σ : World) : World :=
  {| globalObjectAPI := globalObjectAPI σ; globalIsXL := globalIsXL σ;
     globalIsEnvCreds := globalIsEnvCreds σ;
     globalAdminPeers := globalAdminPeers σ;
     globalEndpoints := globalEndpoints σ;
     history := history σ; w := w σ ++ [resp] |}.

Definition setObjectAPI (o : ObjectLayer) (σ : World) : World :=
  {| globalObjectAPI := Some o; globalIsXL := globalIsXL σ;
     globalIsEnvCreds := globalIsEnvCreds σ;
     globalAdminPeers := globalAdminPeers σ;
     globalEndpoints := globalEndpoints σ;
     history := history σ; w := w σ |}.

(** ** Collaborators

    The functions, methods and standard-library routines the handlers call
    and whose code is outside the translated file.  The first group is pure:
    the name validators, [validateListObjectsArgs], [validateAuthKeys],
    [checkBucketAndObjectNames] and [toAPIErrorCode] of package [cmd],
    [time.ParseDuration], [strconv.Atoi], the [Error] method of an error
    value and the XML and JSON codecs of the Go library.  The second group
    reads or changes server, cluster or disk state (signature check, peers,
    storage engine, disks, saved configuration) and so takes the log of the
    calls made before it. *)
Record Env : Type := mkEnv {
  IsValidBucketName : string → bool;
  IsValidObjectPrefix : string → bool;
  ParseDuration : string → result Duration;
  Atoi : string → result Z;
  validateListObjectsArgs : string → string → string → Z → APIErrorCode;
  validateAuthKeys : string → string → error;
  checkBucketAndObjectNames : string → string → error;
  toAPIErrorCode : Err → APIErrorCode;
  Error_msg : Err → string;
  xml_Unmarshal : bytes → result setCredsReq;
  json_Marshal : list VolumeLockInfo → result bytes;
  json_Encode : setConfigResult → result bytes;
  encodeListObjectsV1Response :
    string → string → string → string → Z → ListObjectsInfo → bytes;

  checkRequestAuthType : list Event → Request → APIErrorCode;
  mustGetUUID : list Event → string;
  doUpdateCredsOnPeers : list Event → credential → list (string * error);
  doSaveConfig : list Event → error;
  doListPeerLocksInfo :
    list Event → list adminPeer → string → string → Duration →
    result (list VolumeLockInfo);
  doListObjectsHeal :
    list Event → ObjectLayer → string → string → string → string → Z →
    result ListObjectsInfo;
  doCheckBucketExist : list Event → string → ObjectLayer → error;
  doGetObjectInfo : list Event → ObjectLayer → string → string → error;
  doHealBucket : list Event → ObjectLayer → string → error;
  doHealObject : list Event → ObjectLayer → string → string → error;
  doInitStorageDisks : list Event → list string → result StorageDisks;
  doHealFormatXL : list Event → StorageDisks → error;
  doNewXLObjects : list Event → StorageDisks → result ObjectLayer;
  doWriteTmpConfig : list Event → adminPeer → string → bytes → error;
  doCommitConfig : list Event → adminPeer → string → error
}.

(** ** The handler monad

    A computation takes the world and returns the new world with either a
    value or [None] when the goroutine panicked; after a panic the rest of
    the handler is skipped, deferred calls still run. *)
Definition M (A : Type) : Type := World → option A * World.

#[global] Instance M_ret : MRet M := λ A (a : A) σ, (Some a, σ).

#[global] Instance M_bind : MBind M := λ A B (f : A → M B) (m : M A) σ,
  match m σ with
  | (Some a, σ') => f a σ'
  | (None, σ') => (None, σ')
  end.

Definition panic {A : Type} : M A := λ σ, (None, σ).

(** [defer d] around the rest of the function body. *)
Definition defer {A : Type} (d : M unit) (body : M A) : M A := λ σ,
  let (r, σ') := body σ in (r, snd (d σ')).

Definition emit (e : Event) : M unit := λ σ, (Some tt, log e σ).

(** A call to a collaborator: the result is computed from the log, then the
    call is logged with its result. *)
Definition call {A : Type} (f : list Event → A) (ev : A → Event) : M A :=
  λ σ, let a := f (history σ) in (Some a, log (ev a) σ).

Definition readGlobal {A : Type} (g : World → A) : M A := λ σ, (Some (g σ), σ).

Definition reply (resp : Response) : M unit := λ σ, (Some tt, write resp σ).

(** Running a handler: the world it leaves. *)
Definition run {A : Type} (m : M A) (σ : World) : World := snd (m σ).

(** The calls a run added to the log. *)
Definition newEvents (σ σ' : World) : list Event :=
  drop (length (history σ)) (history σ').

(** ** The handlers *)

Section Handlers.
Context (env : Env).

(** [newObjectLayerFn]: the current storage-engine handle, read under the
    read lock of the handle. *)
Definition newObjectLayerFn : M (option ObjectLayer) :=
  readGlobal globalObjectAPI.

Definition checkAuth (r : Request) : M APIErrorCode :=
  λ σ, (Some (checkRequestAuthType env (history σ) r), σ).

Definition writeErrorResponse (code : APIErrorCode) : M unit :=
  reply (ErrorResponse code).

Definition writeSuccessResponseHeadersOnly : M unit :=
  reply SuccessResponseHeadersOnly.

Definition writeSuccessResponseJSON (b : bytes) : M unit :=
  reply (SuccessResponseJSON b).

Definition writeSuccessResponseXML (b : bytes) : M unit :=
  reply (SuccessResponseXML b).

(** [errorIf] logs only a non-nil error. *)
Definition errorIf (err : error) (msg : string) : M unit :=
  match err with
  | Some e => emit (EvErrorIf e msg)
  | None => mret tt
  end.

(** [for peer, err := range updateErrs { errorIf(err, ...) }] *)
Fixpoint logUpdateErrs (updateErrs : list (string * error)) : M unit :=
  match updateErrs with
  | [] => mret tt
  | (peer, err) :: rest =>
      errorIf err ("Unable to update credentials on peer " +:+ peer +:+ ".");;
      logUpdateErrs rest
  end.

(** [ServiceCredentialsHandler] (lines 134-192). *)
Definition ServiceCredentialsHandler (r : Request) : M unit :=
  adminAPIErr ← checkAuth r;
  if decide (adminAPIErr ≠ ErrNone) then writeErrorResponse adminAPIErr else
  isEnvCreds ← readGlobal globalIsEnvCreds;
  if (isEnvCreds : bool) then writeErrorResponse ErrMethodNotAllowed else
  match Body r with
  | Error _ => writeErrorResponse ErrInternalError
  | Ok inputData =>
    match xml_Unmarshal env inputData with
    | Error err =>
        errorIf (Some err) "Cannot unmarshal credentials request";;
        writeErrorResponse ErrMalformedXML
    | Ok req =>
      match validateAuthKeys env (Username req) (Password req) with
      | Some err => writeErrorResponse (toAPIErrorCode env err)
      | None =>
        let creds := {| AccessKey := Username req; SecretKey := Password req |} in
        updateErrs ← call (λ h, doUpdateCredsOnPeers env h creds)
                          (EvUpdateCredsOnPeers creds);
        logUpdateErrs updateErrs;;
        emit (EvSetCredential creds);;
        err ← call (doSaveConfig env) EvSaveConfig;
        match err with
        | Some _ => writeErrorResponse ErrInternalError
        | None => reply (WriteHeader 200)
        end
      end
    end
  end.

(** [validateLockQueryParams] (lines 287-313); it is a computation because
    a failed duration parse is logged. *)
Definition validateLockQueryParams (vars : Values)
  : M (string * string * Duration * APIErrorCode) :=
  let bucket := Get vars mgmtBucket in
  let prefix := Get vars mgmtPrefix in
  let durationStr := Get vars mgmtLockDuration in
  if negb (IsValidBucketName env bucket) then
    mret ("", "", 0, ErrInvalidBucketName)
  else if negb (IsValidObjectPrefix env prefix) then
    mret ("", "", 0, ErrInvalidObjectName)
  else
    let durationStr := if decide (durationStr = "") then "0s" else durationStr in
    match ParseDuration env durationStr with
    | Error err =>
        errorIf (Some err) "Failed to parse duration passed as query value.";;
        mret ("", "", 0, ErrInvalidDuration)
    | Ok duration => mret (bucket, prefix, duration, ErrNone)
    end.

Definition listPeerLocksInfo (peers : list adminPeer) (bucket prefix : string)
    (duration : Duration) : M (result (list VolumeLockInfo)) :=
  call (λ h, doListPeerLocksInfo env h peers bucket prefix duration)
       (EvListPeerLocksInfo peers bucket prefix duration).

(** [ListLocksHandler] (lines 321-355). *)
Definition ListLocksHandler (r : Request) : M unit :=
  adminAPIErr ← checkAuth r;
  if decide (adminAPIErr ≠ ErrNone) then writeErrorResponse adminAPIErr else
  let vars := URL_Query r in
  '(bucket, prefix, duration, adminAPIErr) ← validateLockQueryParams vars;
  if decide (adminAPIErr ≠ ErrNone) then writeErrorResponse adminAPIErr else
  peers ← readGlobal globalAdminPeers;
  volLocks ← listPeerLocksInfo peers bucket prefix duration;
  match volLocks with
  | Error err =>
      writeErrorResponse ErrInternalError;;
      errorIf (Some err) "Failed to fetch lock information from remote nodes."
  | Ok volLocks =>
    match json_Marshal env volLocks with
    | Error err =>
        writeErrorResponse ErrInternalError;;
        errorIf (Some err) "Failed to marshal lock information into json."
    | Ok jsonBytes => writeSuccessResponseJSON jsonBytes
    end
  end.

(** [for _, volLock := range volLocks { globalNSMutex.ForceUnlock(...) }] *)
Fixpoint forceUnlockAll (volLocks : list VolumeLockInfo) : M unit :=
  match volLocks with
  | [] => mret tt
  | volLock :: rest =>
      emit (EvForceUnlock (Bucket volLock) (Object volLock));;
      forceUnlockAll rest
  end.

(** [ClearLocksHandler] (lines 363-401). *)
Definition ClearLocksHandler (r : Request) : M unit :=
  adminAPIErr ← checkAuth r;
  if decide (adminAPIErr ≠ ErrNone) then writeErrorResponse adminAPIErr else
  let vars := URL_Query r in
  '(bucket, prefix, duration, adminAPIErr) ← validateLockQueryParams vars;
  if decide (adminAPIErr ≠ ErrNone) then writeErrorResponse adminAPIErr else
  peers ← readGlobal globalAdminPeers;
  volLocks ← listPeerLocksInfo peers bucket prefix duration;
  match volLocks with
  | Error err =>
      writeErrorResponse ErrInternalError;;
      errorIf (Some err) "Failed to fetch lock information from remote nodes."
  | Ok volLocks =>
    match json_Marshal env volLocks with
    | Error err =>
        writeErrorResponse ErrInternalError;;
        errorIf (Some err) "Failed to marshal lock information into json."
    | Ok jsonBytes =>
        forceUnlockAll volLocks;;
        writeSuccessResponseJSON jsonBytes
    end
  end.

(** [validateHealQueryParams] (lines 404-434). *)
Definition validateHealQueryParams (vars : Values)
  : string * string * string * string * Z * APIErrorCode :=
  let bucket := Get vars mgmtBucket in
  let prefix := Get vars mgmtPrefix in
  let marker := Get vars mgmtMarker in
  let delimiter := Get vars mgmtDelimiter in
  let maxKeyStr := Get vars mgmtMaxKey in
  if negb (IsValidBucketName env bucket) then
    ("", "", "", "", 0, ErrInvalidBucketName)
  else if negb (IsValidObjectPrefix env prefix) then
    ("", "", "", "", 0, ErrInvalidObjectName)
  else
    match Atoi env maxKeyStr with
    | Error _ => ("", "", "", "", 0, ErrInvalidMaxKeys)
    | Ok maxKey =>
        let apiErr := validateListObjectsArgs env prefix marker delimiter maxKey in
        if decide (apiErr ≠ ErrNone) then ("", "", "", "", 0, apiErr)
        else (bucket, prefix, marker, delimiter, maxKey, ErrNone)
    end.

(** [ListObjectsHealHandler] (lines 440-473). *)
Definition ListObjectsHealHandler (r : Request) : M unit :=
  objLayer ← newObjectLayerFn;
  match objLayer with
  | None => writeErrorResponse ErrServerNotInitialized
  | Some objLayer =>
    adminAPIErr ← checkAuth r;
    if decide (adminAPIErr ≠ ErrNone) then writeErrorResponse adminAPIErr else
    let vars := URL_Query r in
    let '(bucket, prefix, marker, delimiter, maxKey, adminAPIErr) :=
      validateHealQueryParams vars in
    if decide (adminAPIErr ≠ ErrNone) then writeErrorResponse adminAPIErr else
    objectInfos ← call
      (λ h, doListObjectsHeal env h objLayer bucket prefix marker delimiter maxKey)
      (EvListObjectsHeal objLayer bucket prefix marker delimiter maxKey);
    match objectInfos with
    | Error err => writeErrorResponse (toAPIErrorCode env err)
    | Ok objectInfos =>
        writeSuccessResponseXML
          (encodeListObjectsV1Response env bucket prefix marker delimiter
             maxKey objectInfos)
    end
  end.

(** [isDryRun] (lines 549-554): the comma-ok lookup of the key. *)
Definition isDryRun (qval : Values) : bool :=
  match qval !! mgmtDryRun with
  | Some _ => true
  | None => false
  end.

(** [HealBucketHandler] (lines 507-545). *)
Definition HealBucketHandler (r : Request) : M unit :=
  objLayer ← newObjectLayerFn;
  match objLayer with
  | None => writeErrorResponse ErrServerNotInitialized
  | Some objLayer =>
    adminAPIErr ← checkAuth r;
    if decide (adminAPIErr ≠ ErrNone) then writeErrorResponse adminAPIErr else
    let vars := URL_Query r in
    let bucket := Get vars mgmtBucket in
    err ← call (λ h, doCheckBucketExist env h bucket objLayer)
               (EvCheckBucketExist bucket objLayer);
    match err with
    | Some err => writeErrorResponse (toAPIErrorCode env err)
    | None =>
      if isDryRun vars then writeSuccessResponseHeadersOnly else
      err ← call (λ h, doHealBucket env h objLayer bucket)
                 (EvHealBucket objLayer bucket);
      match err with
      | Some err => writeErrorResponse (toAPIErrorCode env err)
      | None => writeSuccessResponseHeadersOnly
      end
    end
  end.

(** [HealObjectHandler] (lines 560-606). *)
Definition HealObjectHandler (r : Request) : M unit :=
  objLayer ← newObjectLayerFn;
  match objLayer with
  | None => writeErrorResponse ErrServerNotInitialized
  | Some objLayer =>
    adminAPIErr ← checkAuth r;
    if decide (adminAPIErr ≠ ErrNone) then writeErrorResponse adminAPIErr else
    let vars := URL_Query r in
    let bucket := Get vars mgmtBucket in
    let object := Get vars mgmtObject in
    match checkBucketAndObjectNames env bucket object with
    | Some err => writeErrorResponse (toAPIErrorCode env err)
    | None =>
      err ← call (λ h, doGetObjectInfo env h objLayer bucket object)
                 (EvGetObjectInfo objLayer bucket object);
      match err with
      | Some err => writeErrorResponse (toAPIErrorCode env err)
      | None =>
        if isDryRun vars then writeSuccessResponseHeadersOnly else
        err ← call (λ h, doHealObject env h objLayer bucket object)
                   (EvHealObject objLayer bucket object);
        match err with
        | Some err => writeErrorResponse (toAPIErrorCode env err)
        | None => writeSuccessResponseHeadersOnly
        end
      end
    end
  end.

(** The swap of lines 665-667: the assignment to [globalObjectAPI] under
    the write lock of the handle. *)
Definition setGlobalObjectAPI (newObjectAPI : ObjectLayer) : M unit :=
  λ σ, (Some tt, log (EvSetGlobalObjectAPI newObjectAPI)
                     (setObjectAPI newObjectAPI σ)).

(** [HealFormatHandler] (lines 612-677). *)
Definition HealFormatHandler (r : Request) : M unit :=
  objectAPI ← newObjectLayerFn;
  match objectAPI with
  | None => writeErrorResponse ErrServerNotInitialized
  | Some objectAPI =>
    adminAPIErr ← checkAuth r;
    if decide (adminAPIErr ≠ ErrNone) then writeErrorResponse adminAPIErr else
    isXL ← readGlobal globalIsXL;
    if negb isXL then writeErrorResponse ErrNotImplemented else
    let vars := URL_Query r in
    if isDryRun vars then writeSuccessResponseHeadersOnly else
    endpoints ← readGlobal globalEndpoints;
    bootstrapDisks ← call (λ h, doInitStorageDisks env h endpoints)
                          (EvInitStorageDisks endpoints);
    match bootstrapDisks with
    | Error err => writeErrorResponse (toAPIErrorCode env err)
    | Ok bootstrapDisks =>
      err ← call (λ h, doHealFormatXL env h bootstrapDisks)
                 (EvHealFormatXL bootstrapDisks);
      match err with
      | Some err => writeErrorResponse (toAPIErrorCode env err)
      | None =>
        newObjectAPI ← call (λ h, doNewXLObjects env h bootstrapDisks)
                            (EvNewXLObjects bootstrapDisks);
        match newObjectAPI with
        | Error err => writeErrorResponse (toAPIErrorCode env err)
        | Ok newObjectAPI =>
            setGlobalObjectAPI newObjectAPI;;
            emit (EvShutdown objectAPI);;
            peers ← readGlobal globalAdminPeers;
            emit (EvReInitPeerDisks peers);;
            writeSuccessResponseHeadersOnly
        end
      end
    end
  end.

(** [fmt.Sprintf("%v", err)] on an error value. *)
Definition Sprintf_v (err : error) : string :=
  match err with
  | None => "<nil>"
  | Some e => Error_msg env e
  end.

(** The loop of lines 736-743, from index [i] on: [peers[i]] panics when
    [i] is out of range. *)
Fixpoint buildNodeResults (peers : list adminPeer) (errs : list error)
    (i : nat) : option (list nodeSummary) :=
  match errs with
  | [] => Some []
  | err :: rest =>
      match peers !! i with
      | None => None
      | Some peer =>
          match buildNodeResults peers rest (S i) with
          | None => None
          | Some nodeResults =>
              Some ({| Name := addr peer;
                       ErrSet := bool_decide (err ≠ None);
                       ErrMsg := Sprintf_v err |} :: nodeResults)
          end
      end
  end.

(** [writeSetConfigResponse] (lines 732-764). *)
Definition writeSetConfigResponse (peers : list adminPeer) (errs : list error)
    (status : bool) : M unit :=
  match buildNodeResults peers errs 0 with
  | None => panic
  | Some nodeResults =>
      let result := {| Status := status; NodeResults := nodeResults |} in
      match json_Encode env result with
      | Error jsonErr => writeErrorResponse (toAPIErrorCode env jsonErr)
      | Ok resultBuf => writeSuccessResponseJSON resultBuf
      end
  end.

(** Modelled from the spec: the peer fan-out (PeerInvoker, 4.1), whose code
    is not in the translated file.  The operation is invoked against every
    peer and the results come back as a slice aligned by peer index; a
    failing peer yields an error in its slot.  The invocations are
    concurrent in the spec; here they are logged in peer order. *)
Fixpoint invokePeers {A : Type} (op : adminPeer → M A) (peers : list adminPeer)
    : M (list A) :=
  match peers with
  | [] => mret []
  | peer :: rest =>
      a ← op peer;
      others ← invokePeers op rest;
      mret (a :: others)
  end.

(** Modelled from the spec: [writeTmpConfigPeers], the staging step of 4.3
    (write the bytes to the temporary resource on every peer). *)
Definition writeTmpConfigPeers (peers : list adminPeer) (tmpFileName : string)
    (configBytes : bytes) : M (list error) :=
  invokePeers
    (λ peer, call (λ h, doWriteTmpConfig env h peer tmpFileName configBytes)
                  (EvWriteTmpConfig peer tmpFileName configBytes))
    peers.

(** Modelled from the spec: [commitConfigPeers], the commit step of 4.3
    (every peer promotes its staged resource). *)
Definition commitConfigPeers (peers : list adminPeer) (tmpFileName : string)
    : M (list error) :=
  invokePeers
    (λ peer, call (λ h, doCommitConfig env h peer tmpFileName)
                  (EvCommitConfig peer tmpFileName))
    peers.

(** The number of error-free slots. *)
Definition successes (errs : list error) : Z :=
  Z.of_nat (length (filter (λ err : error, err = None) errs)).

(** The first non-nil error of the slice. *)
Fixpoint firstError (errs : list error) : error :=
  match errs with
  | [] => None
  | Some e :: _ => Some e
  | None :: rest => firstError rest
  end.

(** Modelled from the spec: the quorum evaluator (4.2), whose code is not
    in the translated file.  The decision is success when at least
    [required] slots are error-free; otherwise the representative error is
    the first non-nil error, and the no-quorum condition when there is
    none. *)
Definition evaluate (errs : list error) (required : Z) : error :=
  if decide (required ≤ successes errs) then None
  else match firstError errs with
       | Some e => Some e
       | None => Some errXLWriteQuorum
       end.

(** Modelled from the spec: [reduceWriteQuorumErrs] is the quorum evaluator
    with the threshold its caller supplies.  Both call sites pass an empty
    list of ignored errors, about which the spec says nothing. *)
Definition reduceWriteQuorumErrs (errs : list error) (ignoredErrs : list Err)
    (writeQuorum : Z) : error :=
  evaluate errs writeQuorum.

(** [len(peers)] as a Go [int]. *)
Definition len {A : Type} (l : list A) : Z := Z.of_nat (length l).

(** [SetConfigHandler] (lines 768-826).  Go's [/] on [int] truncates
    towards zero. *)
Definition SetConfigHandler (r : Request) : M unit :=
  objectAPI ← newObjectLayerFn;
  match objectAPI with
  | None => writeErrorResponse ErrServerNotInitialized
  | Some _ =>
    adminAPIErr ← checkAuth r;
    if decide (adminAPIErr ≠ ErrNone) then writeErrorResponse adminAPIErr else
    match Body r with
    | Error err =>
        errorIf (Some err) "Failed to read config from request body.";;
        writeErrorResponse (toAPIErrorCode env err)
    | Ok configBytes =>
      uuid ← call (mustGetUUID env) EvMustGetUUID;
      let tmpFileName := minioConfigTmpFormat uuid in
      peers ← readGlobal globalAdminPeers;
      errs ← writeTmpConfigPeers peers tmpFileName configBytes;
      let rErr := reduceWriteQuorumErrs errs [] (len peers `quot` 2 + 1) in
      match rErr with
      | Some _ => writeSetConfigResponse peers errs false
      | None =>
        emit (EvNSLock minioReservedBucket globalMinioConfigFile);;
        defer (emit (EvNSUnlock minioReservedBucket globalMinioConfigFile)) (
          errs ← commitConfigPeers peers tmpFileName;
          let rErr := reduceWriteQuorumErrs errs [] (len peers `quot` 2 + 1) in
          match rErr with
          | Some _ => writeSetConfigResponse peers errs false
          | None =>
              writeSetConfigResponse peers errs true;;
              emit (EvSendServiceCmd peers serviceRestart)
          end)
      end
    end
  end.

End Handlers.

(** ** Reading a log *)

(** The world after a list of calls has been logged. *)
Definition logAll (evs : list Event) (σ : World) : World :=
  {| globalObjectAPI := globalObjectAPI σ; globalIsXL := globalIsXL σ;
     globalIsEnvCreds := globalIsEnvCreds σ;
     globalAdminPeers := globalAdminPeers σ;
     globalEndpoints := globalEndpoints σ;
     history := history σ ++ evs; w := w σ |}.

(** The results and the log entries of a fan-out of one logged call per
    peer, started with log [h]. *)
Fixpoint peerResults {A : Type} (f : list Event → adminPeer → A)
    (ev : adminPeer → A → Event) (h : list Event) (peers : list adminPeer)
    : list A :=
  match peers with
  | [] => []
  | peer :: rest =>
      let a := f h peer in a :: peerResults f ev (h ++ [ev peer a]) rest
  end.

Fixpoint peerEvents {A : Type} (f : list Event → adminPeer → A)
    (ev : adminPeer → A → Event) (h : list Event) (peers : list adminPeer)
    : list Event :=
  match peers with
  | [] => []
  | peer :: rest =>
      let a := f h peer in ev peer a :: peerEvents f ev (h ++ [ev peer a]) rest
  end.

(** The per-peer error slots of the staging and of the commit phase, as the
    log shows them. *)
Definition stagingErrs (evs : list Event) : list error :=
  omap (λ e, match e with EvWriteTmpConfig _ _ _ res => Some res | _ => None end)
       evs.

Definition commitErrs (evs : list Event) : list error :=
  omap (λ e, match e with EvCommitConfig _ _ res => Some res | _ => None end)
       evs.

(** The calls of a set-config request that reaches the staging step in
    world [σ] with body [configBytes]: the draw of the identifier, the
    staging fan-out, and the commit fan-out made once the lock is held. *)
Definition uuidEvent (env : Env) (σ : World) : Event :=
  EvMustGetUUID (mustGetUUID env (history σ)).

Definition tmpFileNameOf (env : Env) (σ : World) : string :=
  minioConfigTmpFormat (mustGetUUID env (history σ)).

Definition stagingEvents (env : Env) (σ : World) (configBytes : bytes)
    : list Event :=
  peerEvents
    (λ h peer, doWriteTmpConfig env h peer (tmpFileNameOf env σ) configBytes)
    (λ peer, EvWriteTmpConfig peer (tmpFileNameOf env σ) configBytes)
    (history σ ++ [uuidEvent env σ]) (globalAdminPeers σ).

Definition lockEvent : Event := EvNSLock minioReservedBucket globalMinioConfigFile.
Definition unlockEvent : Event :=
  EvNSUnlock minioReservedBucket globalMinioConfigFile.

Definition commitEvents (env : Env) (σ : World) (configBytes : bytes)
    : list Event :=
  peerEvents
    (λ h peer, doCommitConfig env h peer (tmpFileNameOf env σ))
    (λ peer, EvCommitConfig peer (tmpFileNameOf env σ))
    (history σ ++ uuidEvent env σ :: stagingEvents env σ configBytes
       ++ [lockEvent])
    (globalAdminPeers σ).

(** The threshold both quorum checks of the handler pass to the reducer. *)
Definition configQuorum (σ : World) : Z := len (globalAdminPeers σ) `quot` 2 + 1.

(** The log entries [errorIf] leaves for the failed peers of a credential
    update. *)
Definition updateErrLogs (updateErrs : list (string * error)) : list Event :=
  omap (λ pe : string * error,
          match pe.2 with
          | Some e => Some (EvErrorIf e
              ("Unable to update credentials on peer " +:+ pe.1 +:+ "."))
          | None => None
          end)
       updateErrs.

(** The force-release calls for a list of lock records. *)
Definition releases (volLocks : list VolumeLockInfo) : list Event :=
  map (λ volLock, EvForceUnlock (Bucket volLock) (Object volLock)) volLocks.

(** The step of a format heal that failed, if the entry is one. *)
Definition failedStep (e : Event) : option Err :=
  match e with
  | EvInitStorageDisks _ (Error err) => Some err
  | EvHealFormatXL _ (Some err) => Some err
  | EvNewXLObjects _ (Error err) => Some err
  | _ => None
  end.



(** A request turned down before anything outside the handler was called:
    the log is the one the world had and the one response is an error, which
    is [expected] for a request that got as far as [reached]. *)
Definition rejectedBeforeContact (σ σ' : World) (expected : APIErrorCode)
    (reached : Prop) : Prop :=
  history σ' = history σ ∧
  ∃ code, code ≠ ErrNone ∧ w σ' = w σ ++ [ErrorResponse code] ∧
          (reached → code = expected).

(** A max-key value that does not parse as a non-negative integer. *)
Definition notNonNegativeInteger (env : Env) (maxKeyStr : string) : Prop :=
  match Atoi env maxKeyStr with
  | Error _ => True
  | Ok maxKey => maxKey < 0
  end.

(** The node summary the response loop builds for one slot. *)
Definition summaryOf (env : Env) (peer : adminPeer) (err : error) : nodeSummary :=
  {| Name := addr peer; ErrSet := bool_decide (err ≠ None);
     ErrMsg := Sprintf_v env err |}.

(** What [writeSetConfigResponse] writes for an encoded result. *)
Definition setConfigReply (env : Env) (result : setConfigResult) : Response :=
  match json_Encode env result with
  | Error jsonErr => ErrorResponse (toAPIErrorCode env jsonErr)
  | Ok resultBuf => SuccessResponseJSON resultBuf
  end.

(** ** A sample deployment

    One concrete choice of collaborators and a few worlds and requests, on
    which the statements below are exercised. *)
Module Sample.

Definition digitValue (c : Ascii.ascii) : option Z :=
  let n := Z.of_nat (Ascii.nat_of_ascii c) in
  if (48 <=? n) && (n <=? 57) then Some (n - 48) else None.

(** Splits a string into the value of its leading decimal digits, their
    number, and the rest. *)
Fixpoint leadingDigits (s : string) (acc : Z) (count : nat)
    : Z * nat * string :=
  match s with
  | String c rest =>
      match digitValue c with
      | Some d => leadingDigits rest (acc * 10 + d) (S count)
      | None => (acc, count, s)
      end
  | EmptyString => (acc, count, s)
  end.

Definition parseUnsigned (s : string) : result Z :=
  match leadingDigits s 0 0 with
  | (n, S _, EmptyString) => Ok n
  | _ => Error (errorString "invalid syntax")
  end.

Definition parseInt (s : string) : result Z :=
  match s with
  | String "-"%char rest =>
      match parseUnsigned rest with
      | Ok n => Ok (- n)
      | Error e => Error e
      end
  | String "+"%char rest => parseUnsigned rest
  | _ => parseUnsigned s
  end.

Definition unitNanoseconds (u : string) : option Z :=
  if decide (u = "ns") then Some 1
  else if decide (u = "us") then Some 1000
  else if decide (u = "ms") then Some 1000000
  else if decide (u = "s") then Some 1000000000
  else if decide (u = "m") then Some 60000000000
  else if decide (u = "h") then Some 3600000000000
  else None.

(** Durations of the form digits-then-unit. *)
Definition parseDuration (s : string) : result Duration :=
  match leadingDigits s 0 0 with
  | (n, S _, u) =>
      match unitNanoseconds u with
      | Some k => Ok (n * k)
      | None => Error (errorString "time: invalid duration")
      end
  | _ => Error (errorString "time: invalid duration")
  end.

Definition validBucketName (bucket : string) : bool :=
  let n := String.length bucket in
  bool_decide (3 ≤ n)%nat && bool_decide (n ≤ 63)%nat.

Definition validObjectPrefix (object : string) : bool :=
  bool_decide (String.length object ≤ 1024)%nat.

Definition checkListObjectsArgs (prefix marker delimiter : string)
    (maxKeys : Z) : APIErrorCode :=
  if decide (maxKeys < 0) then ErrInvalidMaxKeys
  else if decide (delimiter ≠ "" ∧ delimiter ≠ "/") then ErrNotImplemented
  else ErrNone.

Definition errObjectNotFound : Err := errorString "Object not found".
Definition errBucketNotFound : Err := errorString "Bucket not found".
Definition errUnreachable : Err := errorString "connection timed out".
Definition errDisksUnavailable : Err := errorString "disks unavailable".

Definition apiErrorCode (err : Err) : APIErrorCode :=
  if decide (err = errObjectNotFound) then ErrCode 1
  else if decide (err = errBucketNotFound) then ErrCode 2
  else if decide (err = errXLWriteQuorum) then ErrCode 3
  else ErrInternalError.

Definition errorMessage (err : Err) : string :=
  match err with
  | errXLWriteQuorum => "write quorum not met"
  | errorString msg => msg
  end.

Definition encode (s : string) : bytes := String.list_byte_of_string s.

Definition unmarshalCreds (b : bytes) : result setCredsReq :=
  match b with
  | [] => Error (errorString "EOF")
  | _ => Ok {| Username := String.string_of_list_byte b;
               Password := "s3cr3t-k3y-0f-th3-d4y" |}
  end.

Definition marshalLocks (volLocks : list VolumeLockInfo) : result bytes :=
  Ok (encode (String.concat ","
        (map (λ l, Bucket l +:+ "/" +:+ Object l) volLocks))).

Definition encodeResult (res : setConfigResult) : result bytes :=
  Ok (encode (String.concat ","
        (map (λ n, Name n +:+ (if ErrSet n then ":failed:" else ":ok:")
                     +:+ ErrMsg n)
             (NodeResults res))
      +:+ (if Status res then ";true" else ";false"))).

Definition signed (r : Request) : bool :=
  bool_decide (("Authorization", "AWS4-HMAC-SHA256") ∈ Header r).

(** Peers with an odd handle do not answer. *)
Definition peerAnswer (peer : adminPeer) : error :=
  if Nat.even (cmdRunner peer) then None else Some errUnreachable.

Definition photoLocks : list VolumeLockInfo :=
  [ {| Bucket := "photos"; Object := "2017/a.jpg"; LocksOnObject := 1;
       LockDetails := ["node1:9000"] |};
    {| Bucket := "photos"; Object := "2017/b.jpg"; LocksOnObject := 2;
       LockDetails := ["node1:9000"; "node3:9000"] |} ].

Definition env : Env :=
  {| IsValidBucketName := validBucketName;
     IsValidObjectPrefix := validObjectPrefix;
     ParseDuration := parseDuration;
     Atoi := parseInt;
     validateListObjectsArgs := checkListObjectsArgs;
     validateAuthKeys := λ user pass,
       if bool_decide (5 ≤ String.length user)%nat
          && bool_decide (8 ≤ String.length pass)%nat
       then None else Some (errorString "invalid access key");
     checkBucketAndObjectNames := λ bucket object,
       if negb (validBucketName bucket)
       then Some (errorString "invalid bucket name")
       else if decide (object = "") then Some (errorString "invalid object name")
       else None;
     toAPIErrorCode := apiErrorCode;
     Error_msg := errorMessage;
     xml_Unmarshal := unmarshalCreds;
     json_Marshal := marshalLocks;
     json_Encode := encodeResult;
     encodeListObjectsV1Response := λ bucket prefix marker delimiter maxKey infos,
       encode (bucket +:+ "?" +:+ String.concat "," infos);
     checkRequestAuthType := λ _ r, if signed r then ErrNone else ErrCode 4;
     mustGetUUID := λ _, "9f1c2d3e";
     doUpdateCredsOnPeers := λ _ _,
       [("node2:9000", Some errUnreachable); ("node3:9000", Some errUnreachable)];
     doSaveConfig := λ _, None;
     doListPeerLocksInfo := λ _ _ bucket _ _,
       if decide (bucket = "photos") then Ok photoLocks else Ok [];
     doListObjectsHeal := λ _ _ _ _ _ _ _, Ok ["2017/a.jpg"];
     doCheckBucketExist := λ _ bucket _,
       if decide (bucket = "photos") then None else Some errBucketNotFound;
     doGetObjectInfo := λ _ _ _ object,
       if decide (object = "2017/a.jpg") then None else Some errObjectNotFound;
     doHealBucket := λ _ _ _, None;
     doHealObject := λ _ _ _ _, None;
     doInitStorageDisks := λ _ endpoints,
       match endpoints with
       | [] => Error errDisksUnavailable
       | _ => Ok 7%nat
       end;
     doHealFormatXL := λ _ _, None;
     doNewXLObjects := λ _ disks, Ok (S disks);
     doWriteTmpConfig := λ _ peer _ _, peerAnswer peer;
     doCommitConfig := λ _ peer _, peerAnswer peer |}.

Definition node (i : nat) (name : string) : adminPeer :=
  {| addr := name; cmdRunner := i |}.

(** Five peers, three of which (handles 1, 3, 5) do not answer. *)
Definition fivePeers : list adminPeer :=
  [ node 0 "node1:9000"; node 1 "node2:9000"; node 3 "node3:9000";
    node 4 "node4:9000"; node 5 "node5:9000" ].

(** Three peers, one of which does not answer. *)
Definition threePeers : list adminPeer :=
  [ node 0 "node1:9000"; node 2 "node2:9000"; node 3 "node3:9000" ].

Definition world (peers : list adminPeer) (endpoints : list string) : World :=
  {| globalObjectAPI := Some 1%nat; globalIsXL := true;
     globalIsEnvCreds := false; globalAdminPeers := peers;
     globalEndpoints := endpoints; history := []; w := [] |}.

Definition request (query : list (string * list string)) (body : string)
    : Request :=
  {| Header := [("Authorization", "AWS4-HMAC-SHA256")];
     URL_Query := list_to_map query;
     Body := Ok (encode body) |}.

(** A three-node erasure-coded cluster with one storage endpoint. *)
Definition cluster : World := world threePeers ["/export/d1"].

(** The same cluster with no endpoint left to initialise. *)
Definition clusterWithoutDisks : World := world threePeers [].

(** A five-node cluster where only two peers answer. *)
Definition degradedCluster : World := world fivePeers ["/export/d1"].

Definition healMissingObject : Request :=
  request [("bucket", ["photos"]); ("object", ["gone.jpg"])] "".

Definition healObjectDryRun : Request :=
  request [("bucket", ["photos"]); ("object", ["2017/a.jpg"]);
           ("dry-run", [""])] "".

Definition healFormat : Request := request [] "".

Definition setConfig : Request := request [] "{ version: 13 }".

Definition setCreds : Request := request [] "admin-user".

Definition listLocksBadDuration : Request :=
  request [("bucket", ["photos"]); ("duration", ["soon"])] "".

Definition listLocksNoBucket : Request := request [("prefix", ["2017/"])] "".

Definition listHealBadMaxKey : Request :=
  request [("bucket", ["photos"]); ("max-key", ["abc"])] "".

End Sample.

(** ** The rest of the handlers and what is stated about all of them *)

(** [ServiceRestartHandler] (lines 110-121). *)
Definition ServiceRestartHandler (env : Env) (r : Request) : M unit :=
  adminAPIErr ← checkAuth env r;
  if decide (adminAPIErr ≠ ErrNone) then writeErrorResponse adminAPIErr else
  writeSuccessResponseHeadersOnly;;
  peers ← readGlobal globalAdminPeers;
  emit (EvSendServiceCmd peers serviceRestart).

(** [toAdminAPIErrCode] (lines 710-716). *)
Definition toAdminAPIErrCode (env : Env) (err : Err) : APIErrorCode :=
  match err with
  | errXLWriteQuorum => ErrAdminConfigNoQuorum
  | _ => toAPIErrorCode env err
  end.

(** The handlers that need the storage engine: they read its handle first. *)
Definition engineHandlers (env : Env) : list (Request → M unit) :=
  [ListObjectsHealHandler env; HealBucketHandler env; HealObjectHandler env;
   HealFormatHandler env; SetConfigHandler env].

(** The handlers that do not look at the handle. *)
Definition peerHandlers (env : Env) : list (Request → M unit) :=
  [ServiceRestartHandler env; ServiceCredentialsHandler env;
   ListLocksHandler env; ClearLocksHandler env].

Definition adminHandlers (env : Env) : list (Request → M unit) :=
  peerHandlers env ++ engineHandlers env.

(** The globals no handler assigns. *)
Definition sameSettings (σ σ' : World) : Prop :=
  globalIsXL σ' = globalIsXL σ ∧
  globalIsEnvCreds σ' = globalIsEnvCreds σ ∧
  globalAdminPeers σ' = globalAdminPeers σ ∧
  globalEndpoints σ' = globalEndpoints σ.

(** The handlers that never assign the engine handle. *)
Definition handlersKeepingEngine (env : Env) : list (Request → M unit) :=
  peerHandlers env ++
  [ListObjectsHealHandler env; HealBucketHandler env; HealObjectHandler env;
   SetConfigHandler env].

(** Requests and worlds on which the statements about all handlers are
    exercised. *)
Module Scenarios.

Definition unsigned (query : list (string * list string)) (body : string)
    : Request :=
  {| Header := []; URL_Query := list_to_map query;
     Body := Ok (Sample.encode body) |}.

Definition unsignedClearLocks : Request := unsigned [("bucket", ["photos"])] "".

Definition unsignedSetConfig : Request := unsigned [] "{ version: 13 }".

(** A server whose storage engine is not initialised yet. *)
Definition startingServer : World :=
  {| globalObjectAPI := None; globalIsXL := true; globalIsEnvCreds := false;
     globalAdminPeers := Sample.threePeers; globalEndpoints := ["/export/d1"];
     history := []; w := [] |}.

(** A single-disk server: the backend is not erasure-coded. *)
Definition fsServer : World :=
  {| globalObjectAPI := Some 1%nat; globalIsXL := false;
     globalIsEnvCreds := false; globalAdminPeers := [Sample.node 0 "node1:9000"];
     globalEndpoints := ["/export/d1"]; history := []; w := [] |}.

Definition healFormatDryRun : Request :=
  Sample.request [("dry-run", [""])] "".

(** The collaborators of the sample deployment, except that no peer
    manages to promote its staged file. *)
Definition commitDownEnv : Env :=
  {| IsValidBucketName := IsValidBucketName Sample.env;
     IsValidObjectPrefix := IsValidObjectPrefix Sample.env;
     ParseDuration := ParseDuration Sample.env;
     Atoi := Atoi Sample.env;
     validateListObjectsArgs := validateListObjectsArgs Sample.env;
     validateAuthKeys := validateAuthKeys Sample.env;
     checkBucketAndObjectNames := checkBucketAndObjectNames Sample.env;
     toAPIErrorCode := toAPIErrorCode Sample.env;
     Error_msg := Error_msg Sample.env;
     xml_Unmarshal := xml_Unmarshal Sample.env;
     json_Marshal := json_Marshal Sample.env;
     json_Encode := json_Encode Sample.env;
     encodeListObjectsV1Response := encodeListObjectsV1Response Sample.env;
     checkRequestAuthType := checkRequestAuthType Sample.env;
     mustGetUUID := mustGetUUID Sample.env;
     doUpdateCredsOnPeers := doUpdateCredsOnPeers Sample.env;
     doSaveConfig := doSaveConfig Sample.env;
     doListPeerLocksInfo := doListPeerLocksInfo Sample.env;
     doListObjectsHeal := doListObjectsHeal Sample.env;
     doCheckBucketExist := doCheckBucketExist Sample.env;
     doGetObjectInfo := doGetObjectInfo Sample.env;
     doHealBucket := doHealBucket Sample.env;
     doHealObject := doHealObject Sample.env;
     doInitStorageDisks := doInitStorageDisks Sample.env;
     doHealFormatXL := doHealFormatXL Sample.env;
     doNewXLObjects := doNewXLObjects Sample.env;
     doWriteTmpConfig := doWriteTmpConfig Sample.env;
     doCommitConfig := λ _ _ _, Some Sample.errUnreachable |}.

End Scenarios.

(** The calls of a configuration change that must be serialised: the lock
    itself, the promotion of a staged file and the restart. *)
Definition touchesConfig (e : Event) : bool :=
  match e with
  | EvCommitConfig _ _ _ | EvSendServiceCmd _ _ | EvNSLock _ _
  | EvNSUnlock _ _ => true
  | _ => false
  end.

Definition isLockCall (e : Event) : bool :=
  match e with
  | EvNSLock _ _ | EvNSUnlock _ _ => true
  | _ => false
  end.

(** A log in which the configuration lock is taken once, released by the
    last call, and every serialised call lies in between. *)
Definition underConfigLock (evs : list Event) : Prop :=
  ∃ before inside,
    evs = before ++ lockEvent :: inside ++ [unlockEvent] ∧
    Forall (λ e, touchesConfig e = false) before ∧
    Forall (λ e, isLockCall e = false) inside.

(** ** The status handlers

    The handlers that only read: service status, server information, the
    list of buckets to heal and the configuration.  Their calls are kept in
    a log of their own, next to the world of the other handlers. *)

(** [ServerVersion] and [ServerStatus] (lines 52-61). *)
Record ServerVersion : Type := mkServerVersion {
  Version : string;
  CommitID : string
}.

Record ServerStatus : Type := mkServerStatus {
  serverVersion : ServerVersion;
  statusUptime : Duration
}.

(** What the engine reports of its storage, and a bucket of a heal
    listing: values the handlers only pass on. *)
Definition StorageInfo : Type := list Z.
Definition BucketInfo : Type := string.

(** [ServerProperties], [ServerConnStats] and [ServerInfo] (lines 196-216);
    the byte counters are [uint64]. *)
Record ServerProperties : Type := mkServerProperties {
  Uptime : Duration;
  propVersion : string;
  propCommitID : string;
  Region : string;
  SQSARN : list string
}.

Record ServerConnStats : Type := mkServerConnStats {
  TotalInputBytes : Z;
  TotalOutputBytes : Z;
  Throughput : Z
}.

Record ServerInfo : Type := mkServerInfo {
  infoStorage : StorageInfo;
  ConnStats : ServerConnStats;
  Properties : ServerProperties
}.

(** The calls of the status handlers, with their results. *)
Inductive Query : Type :=
| QGetPeerUptimes (peers : list adminPeer) (res : result Duration)
| QStorageInfo (objLayer : ObjectLayer) (res : StorageInfo)
| QGetAllExternalTargets (res : list string)
| QGetRegion (res : string)
| QGetTotalInputBytes (res : Z)
| QGetTotalOutputBytes (res : Z)
| QListBucketsHeal (objLayer : ObjectLayer) (res : result (list BucketInfo))
| QGetPeerConfig (peers : list adminPeer) (res : result bytes).

(** The collaborators of the status handlers; those that read server or
    cluster state take the two logs. *)
Record StatusEnv : Type := mkStatusEnv {
  buildVersion : ServerVersion;
  json_MarshalStatus : ServerStatus → result bytes;
  json_MarshalInfo : ServerInfo → result bytes;
  encodeListBucketsResponse : list BucketInfo → bytes;
  doGetPeerUptimes :
    list Event → list Query → list adminPeer → result Duration;
  doStorageInfo : list Event → list Query → ObjectLayer → StorageInfo;
  doGetAllExternalTargets : list Event → list Query → list string;
  doGetRegion : list Event → list Query → string;
  doGetTotalInputBytes : list Event → list Query → Z;
  doGetTotalOutputBytes : list Event → list Query → Z;
  doListBucketsHeal :
    list Event → list Query → ObjectLayer → result (list BucketInfo);
  doGetPeerConfig : list Event → list Query → list adminPeer → result bytes
}.

(** Computations over the world and the log of queries. *)
Definition MS (A : Type) : Type :=
  World * list Query → option A * (World * list Query).

#[global] Instance MS_ret : MRet MS := λ A (a : A) s, (Some a, s).

#[global] Instance MS_bind : MBind MS := λ A B (f : A → MS B) (m : MS A) s,
  match m s with
  | (Some a, s') => f a s'
  | (None, s') => (None, s')
  end.

(** A computation of the other handlers, run on the world. *)
Definition liftM {A : Type} (m : M A) : MS A := λ s,
  let (a, σ') := m s.1 in (a, (σ', s.2)).

(** A query: its result is computed from the two logs, then it is logged. *)
Definition query {A : Type} (f : list Event → list Query → A) (q : A → Query)
    : MS A := λ s,
  let a := f (history s.1) s.2 in (Some a, (s.1, s.2 ++ [q a])).

Definition runS {A : Type} (m : MS A) (σ : World) (qs : list Query)
    : World * list Query :=
  (m (σ, qs)).2.

(** The queries a run added. *)
Definition newQueries (qs qs' : list Query) : list Query :=
  drop (length qs) qs'.

Section StatusHandlers.
Context (env : Env) (senv : StatusEnv).

(** [ServiceStatusHandler] (lines 68-103). *)
Definition ServiceStatusHandler (r : Request) : MS unit :=
  adminAPIErr ← liftM (checkAuth env r);
  if decide (adminAPIErr ≠ ErrNone)
  then liftM (writeErrorResponse adminAPIErr) else
  let serverVersion := {| Version := Version (buildVersion senv);
                          CommitID := CommitID (buildVersion senv) |} in
  peers ← liftM (readGlobal globalAdminPeers);
  uptime ← query (λ h qs, doGetPeerUptimes senv h qs peers)
                 (QGetPeerUptimes peers);
  match uptime with
  | Error err =>
      liftM (writeErrorResponse (toAPIErrorCode env err));;
      liftM (errorIf (Some err)
               "Possibly failed to get uptime from majority of servers.")
  | Ok uptime =>
    let serverStatus := {| serverVersion := serverVersion;
                           statusUptime := uptime |} in
    match json_MarshalStatus senv serverStatus with
    | Error err =>
        liftM (writeErrorResponse ErrInternalError);;
        liftM (errorIf (Some err) "Failed to marshal storage info into json.")
    | Ok jsonBytes => liftM (writeSuccessResponseJSON jsonBytes)
    end
  end.

(** [ServerInfoHandler] (lines 221-284). *)
Definition ServerInfoHandler (r : Request) : MS unit :=
  adminAPIErr ← liftM (checkAuth env r);
  if decide (adminAPIErr ≠ ErrNone)
  then liftM (writeErrorResponse adminAPIErr) else
  objLayer ← liftM newObjectLayerFn;
  match objLayer with
  | None => liftM (writeErrorResponse ErrServerNotInitialized)
  | Some objLayer =>
    storage ← query (λ h qs, doStorageInfo senv h qs objLayer)
                    (QStorageInfo objLayer);
    arns ← query (doGetAllExternalTargets senv) QGetAllExternalTargets;
    peers ← liftM (readGlobal globalAdminPeers);
    uptime ← query (λ h qs, doGetPeerUptimes senv h qs peers)
                   (QGetPeerUptimes peers);
    match uptime with
    | Error err =>
        liftM (writeErrorResponse (toAPIErrorCode env err));;
        liftM (errorIf (Some err)
                 "Unable to get uptime from majority of servers.")
    | Ok uptime =>
      region ← query (doGetRegion senv) QGetRegion;
      let properties := {| propVersion := Version (buildVersion senv);
                           propCommitID := CommitID (buildVersion senv);
                           Region := region; SQSARN := arns;
                           Uptime := uptime |} in
      totalInput ← query (doGetTotalInputBytes senv) QGetTotalInputBytes;
      totalOutput ← query (doGetTotalOutputBytes senv) QGetTotalOutputBytes;
      let connStats := {| TotalInputBytes := totalInput;
                          TotalOutputBytes := totalOutput;
                          Throughput := 0 |} in
      let info := {| infoStorage := storage; ConnStats := connStats;
                     Properties := properties |} in
      match json_MarshalInfo senv info with
      | Error err =>
          liftM (writeErrorResponse ErrInternalError);;
          liftM (errorIf (Some err)
                   "Failed to marshal storage info into json.")
      | Ok jsonBytes => liftM (writeSuccessResponseJSON jsonBytes)
      end
    end
  end.

(** [ListBucketsHealHandler] (lines 476-501). *)
Definition ListBucketsHealHandler (r : Request) : MS unit :=
  objLayer ← liftM newObjectLayerFn;
  match objLayer with
  | None => liftM (writeErrorResponse ErrServerNotInitialized)
  | Some objLayer =>
    adminAPIErr ← liftM (checkAuth env r);
    if decide (adminAPIErr ≠ ErrNone)
    then liftM (writeErrorResponse adminAPIErr) else
    bucketsInfo ← query (λ h qs, doListBucketsHeal senv h qs objLayer)
                        (QListBucketsHeal objLayer);
    match bucketsInfo with
    | Error err => liftM (writeErrorResponse (toAPIErrorCode env err))
    | Ok bucketsInfo =>
        liftM (writeSuccessResponseXML
                 (encodeListBucketsResponse senv bucketsInfo))
    end
  end.

(** [GetConfigHandler] (lines 682-706). *)
Definition GetConfigHandler (r : Request) : MS unit :=
  adminAPIErr ← liftM (checkAuth env r);
  if decide (adminAPIErr ≠ ErrNone)
  then liftM (writeErrorResponse adminAPIErr) else
  objLayer ← liftM newObjectLayerFn;
  match objLayer with
  | None => liftM (writeErrorResponse ErrServerNotInitialized)
  | Some _ =>
    peers ← liftM (readGlobal globalAdminPeers);
    configBytes ← query (λ h qs, doGetPeerConfig senv h qs peers)
                        (QGetPeerConfig peers);
    match configBytes with
    | Error err =>
        liftM (errorIf (Some err) "Failed to get config from peers");;
        liftM (writeErrorResponse (toAdminAPIErrCode env err))
    | Ok configBytes => liftM (writeSuccessResponseJSON configBytes)
    end
  end.

Definition statusHandlers : list (Request → MS unit) :=
  [ServiceStatusHandler; ServerInfoHandler; ListBucketsHealHandler;
   GetConfigHandler].

End StatusHandlers.

(** A log that holds nothing but logged errors. *)
Definition onlyErrorLogs (evs : list Event) : Prop :=
  Forall (λ e, match e with EvErrorIf _ _ => True | _ => False end) evs.

(** Collaborators for the status handlers of the sample deployment: the
    uptime is read only when at least two peers answer, and the
    configuration is not readable in quorum. *)
Definition sampleStatusEnv : StatusEnv :=
  {| buildVersion := {| Version := "2017-03-16T21:50:32Z";
                        CommitID := "5311eb22fd681a8cd4a46e2a872d46c2352c64e8" |};
     json_MarshalStatus := λ st,
       Ok (Sample.encode (Version (serverVersion st)));
     json_MarshalInfo := λ info,
       Ok (Sample.encode (Region (Properties info)));
     encodeListBucketsResponse := λ buckets,
       Sample.encode (String.concat "," buckets);
     doGetPeerUptimes := λ _ _ peers,
       if decide (2 ≤ length (filter (λ p, Sample.peerAnswer p = None) peers))%nat
       then Ok 3600000000000 else Error errXLWriteQuorum;
     doStorageInfo := λ _ _ _, [1000000; 400000];
     doGetAllExternalTargets := λ _ _, [];
     doGetRegion := λ _ _, "us-east-1";
     doGetTotalInputBytes := λ _ _, 1024;
     doGetTotalOutputBytes := λ _ _, 4096;
     doListBucketsHeal := λ _ _ _, Ok ["photos"];
     doGetPeerConfig := λ _ _ _, Error errXLWriteQuorum |}.

(** ** Command suggestions ([cmd/main.go])

    [findClosestCommands] (lines 79-98) over the command tree.  The tree and
    the edit distance are outside the file: what [PrefixMatch] returns for a
    command, what [Walk] returns for the whole tree (both already read as
    strings) and [DamerauLevenshteinDistance] are taken as they come. *)
Module ClosestCommands.

(** The loop of [sort.Search] between [i] and [j]; each round shrinks the
    interval, so [j - i] rounds are enough. *)
Fixpoint searchLoop (fuel : nat) (f : nat → bool) (i j : nat) : nat :=
  match fuel with
  | O => i
  | S fuel =>
      if bool_decide (i < j)%nat then
        let h := ((i + j) / 2)%nat in
        if negb (f h) then searchLoop fuel f (h + 1)%nat j
        else searchLoop fuel f i h
      else i
  end.

(** [sort.Search(n, f)]. *)
Definition Search (n : nat) (f : nat → bool) : nat := searchLoop n f 0%nat n.

(** [sort.SearchStrings(a, x)]: the predicate is [a[i] >= x] on the bytes of
    the strings; the search only asks it inside the slice. *)
Definition SearchStrings (a : list string) (x : string) : nat :=
  Search (length a)
    (λ i, match a !! i with
          | Some s => bool_decide (String.le x s)
          | None => false
          end).

(** [sort.Strings]: the slice in increasing order. *)
Definition sortStrings (a : list string) : list string :=
  merge_sort String.le a.

Section Commands.
Context (PrefixMatch : string → list string) (Walk : list string)
        (DamerauLevenshteinDistance : string → string → Z).

(** One round of the second loop (lines 87-96). *)
Definition suggest (command : string) (closestCommands : list string)
    (value : string) : list string :=
  if bool_decide
       (SearchStrings closestCommands value < length closestCommands)%nat
  then closestCommands
  else if bool_decide (DamerauLevenshteinDistance command value < 2)
  then closestCommands ++ [value]
  else closestCommands.

Definition findClosestCommands (command : string) : list string :=
  let closestCommands :=
    foldl (λ closestCommands value, closestCommands ++ [value]) []
          (PrefixMatch command) in
  let closestCommands := sortStrings closestCommands in
  foldl (suggest command) closestCommands Walk.

End Commands.

(** The three commands the application registers (lines 102-104), as a
    tree, and an edit distance to try the suggestions on: the number of
    positions at which two strings of equal length differ, and 2 for strings
    of different lengths. *)
Definition sampleWalk : list string := ["server"; "update"; "version"].

Definition samplePrefixMatch (command : string) : list string :=
  filter (λ value, String.prefix command value = true) sampleWalk.

Fixpoint mismatches (s1 s2 : string) : Z :=
  match s1, s2 with
  | String c1 s1, String c2 s2 =>
      (if decide (c1 = c2) then 0 else 1) + mismatches s1 s2
  | EmptyString, EmptyString => 0
  | _, _ => 2
  end.

End ClosestCommands.

(** ** Start-up ([cmd/main.go])

    [migrate], [enableLoggers], [initConfig] and [minioInit] (lines 64-77
    and 147-193).  Everything they call is outside the file: each call is
    answered by the environment and logged with its answer.  A call that
    does not return (the callee ended the process) is answered [None], and
    nothing runs after it. *)
Module Startup.

(** [envParams] (lines 147-150). *)
Record envParams : Type := mkEnvParams {
  creds : credential;
  browser : string
}.

(** One call with its arguments and its answer. *)
Inductive Step : Type :=
| SMustGetCredentialFromEnv (res : option credential)
| SMustGetBrowserFromEnv (res : option string)
| SIsConfigFileExists (res : option bool)
| SNewConfig (envs : envParams) (res : option error)
| SMigrateConfig (res : option error)
| SFatalIf (err : error) (msg : string) (res : option unit)
| SLoadConfig (envs : envParams) (res : option error)
| SFatalf (format : string) (err : Err) (res : option unit)
| SGetConfigDir (res : option string)
| SPrintln (msg : string) (res : option unit)
| SIsSSL (res : option bool)
| SEnableConsoleLogger (res : option unit)
| SEnableFileLogger (res : option unit)
| SInitError (res : option unit).

(** The process while it starts: the TLS flag and the calls made so far. *)
Record Boot : Type := mkBoot {
  globalIsSSL : bool;
  steps : list Step
}.

Record BootEnv : Type := mkBootEnv {
  doMustGetCredentialFromEnv : list Step → option credential;
  doMustGetBrowserFromEnv : list Step → option string;
  doIsConfigFileExists : list Step → option bool;
  doNewConfig : list Step → envParams → option error;
  doMigrateConfig : list Step → option error;
  doFatalIf : list Step → error → string → option unit;
  doLoadConfig : list Step → envParams → option error;
  doFatalf : list Step → string → Err → option unit;
  doGetConfigDir : list Step → option string;
  doPrintln : list Step → string → option unit;
  doIsSSL : list Step → option bool;
  doEnableConsoleLogger : list Step → option unit;
  doEnableFileLogger : list Step → option unit;
  doInitError : list Step → option unit
}.

(** A computation returns [None] when the process has ended. *)
Definition P (A : Type) : Type := Boot → option A * Boot.

#[global] Instance P_ret : MRet P := λ A (a : A) s, (Some a, s).

#[global] Instance P_bind : MBind P := λ A B (f : A → P B) (m : P A) s,
  match m s with
  | (Some a, s') => f a s'
  | (None, s') => (None, s')
  end.

Definition record (st : Step) (s : Boot) : Boot :=
  {| globalIsSSL := globalIsSSL s; steps := steps s ++ [st] |}.

Definition step {A : Type} (f : list Step → option A)
    (st : option A → Step) : P A :=
  λ s, let a := f (steps s) in (a, record (st a) s).

Definition setIsSSL (b : bool) : P unit :=
  λ s, (Some tt, {| globalIsSSL := b; steps := steps s |}).

Definition newSteps (s s' : Boot) : list Step :=
  drop (length (steps s)) (steps s').

Definition newline : string := String (Ascii.ascii_of_nat 10) "".

Definition createFailed : string :=
  "Unable to initialize minio config for the first time. Err: %s."
  +:+ newline.

Definition loadFailed : string :=
  "Unable to initialize minio config. Err: %s." +:+ newline.

Definition created : string :=
  "Created minio configuration file successfully at ".

Section Boot.
Context (env : BootEnv).

(** [migrate] (lines 64-70). *)
Definition migrate : P unit :=
  err ← step (doMigrateConfig env) SMigrateConfig;
  step (λ h, doFatalIf env h err "Config migration failed.")
       (SFatalIf err "Config migration failed.").

(** [enableLoggers] (lines 72-77). *)
Definition enableLoggers : P unit :=
  step (doEnableConsoleLogger env) SEnableConsoleLogger;;
  step (doEnableFileLogger env) SEnableFileLogger.

(** [initConfig] (lines 154-177). *)
Definition initConfig : P unit :=
  creds ← step (doMustGetCredentialFromEnv env) SMustGetCredentialFromEnv;
  browser ← step (doMustGetBrowserFromEnv env) SMustGetBrowserFromEnv;
  let envs := {| creds := creds; browser := browser |} in
  exists_ ← step (doIsConfigFileExists env) SIsConfigFileExists;
  if negb exists_ then
    err ← step (λ h, doNewConfig env h envs) (SNewConfig envs);
    match err with
    | Some err =>
        step (λ h, doFatalf env h createFailed err) (SFatalf createFailed err)
    | None => mret tt
    end;;
    dir ← step (doGetConfigDir env) SGetConfigDir;
    step (λ h, doPrintln env h (created +:+ dir)) (SPrintln (created +:+ dir))
  else
    migrate;;
    err ← step (λ h, doLoadConfig env h envs) (SLoadConfig envs);
    match err with
    | Some err =>
        step (λ h, doFatalf env h loadFailed err) (SFatalf loadFailed err)
    | None => mret tt
    end.

(** [minioInit] (lines 180-193). *)
Definition minioInit : P unit :=
  isSSL ← step (doIsSSL env) SIsSSL;
  setIsSSL isSSL;;
  initConfig;;
  enableLoggers;;
  step (doInitError env) SInitError.

End Boot.

(** Whether the logged call returned. *)
Definition returned (st : Step) : bool :=
  match st with
  | SMustGetCredentialFromEnv res => bool_decide (is_Some res)
  | SMustGetBrowserFromEnv res => bool_decide (is_Some res)
  | SIsConfigFileExists res => bool_decide (is_Some res)
  | SNewConfig _ res => bool_decide (is_Some res)
  | SMigrateConfig res => bool_decide (is_Some res)
  | SFatalIf _ _ res => bool_decide (is_Some res)
  | SLoadConfig _ res => bool_decide (is_Some res)
  | SFatalf _ _ res => bool_decide (is_Some res)
  | SGetConfigDir res => bool_decide (is_Some res)
  | SPrintln _ res => bool_decide (is_Some res)
  | SIsSSL res => bool_decide (is_Some res)
  | SEnableConsoleLogger res => bool_decide (is_Some res)
  | SEnableFileLogger res => bool_decide (is_Some res)
  | SInitError res => bool_decide (is_Some res)
  end.

(** The two fatal calls end the process: [fatalIf] when it is given an
    error, [console.Fatalf] always. *)
Definition fatalExits (env : BootEnv) : Prop :=
  (∀ h err msg, doFatalIf env h (Some err) msg = None) ∧
  (∀ h format err, doFatalf env h format err = None).

(** The configuration is in memory: it was created without an error, or
    migrated and loaded without an error. *)
Definition configReady (log : list Step) : Prop :=
  (∃ envs, SNewConfig envs (Some None) ∈ log) ∨
  (SMigrateConfig (Some None) ∈ log ∧
   ∃ envs, SLoadConfig envs (Some None) ∈ log).

(** A first start (no configuration file yet) and a start on a file whose
    migration fails. *)
Definition firstStart : BootEnv :=
  {| doMustGetCredentialFromEnv :=
       λ _, Some {| AccessKey := "minio"; SecretKey := "minio123" |};
     doMustGetBrowserFromEnv := λ _, Some "on";
     doIsConfigFileExists := λ _, Some false;
     doNewConfig := λ _ _, Some None;
     doMigrateConfig := λ _, Some None;
     doFatalIf := λ _ err _, match err with Some _ => None | None => Some tt end;
     doLoadConfig := λ _ _, Some None;
     doFatalf := λ _ _ _, None;
     doGetConfigDir := λ _, Some "/root/.minio";
     doPrintln := λ _ _, Some tt;
     doIsSSL := λ _, Some false;
     doEnableConsoleLogger := λ _, Some tt;
     doEnableFileLogger := λ _, Some tt;
     doInitError := λ _, Some tt |}.

Definition brokenMigration : BootEnv :=
  {| doMustGetCredentialFromEnv :=
       λ _, Some {| AccessKey := "minio"; SecretKey := "minio123" |};
     doMustGetBrowserFromEnv := λ _, Some "on";
     doIsConfigFileExists := λ _, Some true;
     doNewConfig := λ _ _, Some None;
     doMigrateConfig := λ _, Some (Some (errorString "unknown config version"));
     doFatalIf := λ _ err _, match err with Some _ => None | None => Some tt end;
     doLoadConfig := λ _ _, Some None;
     doFatalf := λ _ _ _, None;
     doGetConfigDir := λ _, Some "/root/.minio";
     doPrintln := λ _ _, Some tt;
     doIsSSL := λ _, Some true;
     doEnableConsoleLogger := λ _, Some tt;
     doEnableFileLogger := λ _, Some tt;
     doInitError := λ _, Some tt |}.

Definition cold : Boot := {| globalIsSSL := false; steps := [] |}.

End Startup.

(** ** Proof support *)

Arguments isDryRun : simpl never.
Arguments Get : simpl never.
Arguments writeTmpConfigPeers : simpl never.
Arguments commitConfigPeers : simpl never.
Arguments writeSetConfigResponse : simpl never.

(** Unfolds the monad and the response helpers, so that a handler applied
    to a world reduces to the world it leaves. *)
Ltac unfold_monad :=
  unfold run, newObjectLayerFn, checkAuth, writeErrorResponse,
    writeSuccessResponseHeadersOnly, writeSuccessResponseJSON,
    writeSuccessResponseXML, setGlobalObjectAPI, errorIf in *;
  unfold mbind, M_bind, mret, M_ret, call, emit, reply, readGlobal, panic,
    defer in *;
  simpl in *.

(** Reduces the projections of a world built by [log], [write] and the like,
    and the list of calls added since the initial world. *)
Ltac events :=
  unfold newEvents in *;
  cbn [history w globalObjectAPI globalIsXL globalIsEnvCreds globalAdminPeers
       globalEndpoints log write setObjectAPI logAll fst snd] in *;
  rewrite <- ?app_assoc in *;
  rewrite ?drop_app_length, ?drop_all in *;
  cbn [app] in *.

(** Splits on every test of the handler under execution. *)
Ltac branches := repeat (case_match; simplify_eq/=; try done).

(** Decides membership goals and hypotheses over an explicit list. *)
Ltac members :=
  repeat match goal with
  | H : _ ∈ _ :: _ |- _ => apply elem_of_cons in H; destruct H
  | H : _ ∈ [] |- _ => apply elem_of_nil in H; destruct H
  end; simplify_eq/=.

Lemma newEvents_app σ σ' evs :
  history σ' = history σ ++ evs → newEvents σ σ' = evs.
Proof. intros H. unfold newEvents. rewrite H. apply drop_app_length. Qed.

Lemma logAll_nil σ : logAll [] σ = σ.
Proof. destruct σ. unfold logAll. simpl. by rewrite app_nil_r. Qed.

Lemma logAll_log e evs σ : logAll evs (log e σ) = logAll (e :: evs) σ.
Proof. unfold logAll, log. simpl. by rewrite <- app_assoc. Qed.

(** ** Dry-run detection *)

(** C10: dry-run mode is decided by the presence of the "dry-run" key alone:
    a request is a dry run exactly when the key is in the query, whatever
    its values (also "dry-run=false" and a key without value), and a real
    run exactly when the key is absent. *)
Theorem isDryRun_key_presence (qval : Values) :
  (isDryRun qval = true ↔ is_Some (qval !! "dry-run")) ∧
  (isDryRun qval = false ↔ qval !! "dry-run" = None) ∧
  (∀ values : list string, isDryRun (<["dry-run" := values]> qval) = true) ∧
  isDryRun (<["dry-run" := ["false"]]> qval) = true ∧
  isDryRun (delete "dry-run" qval) = false.
Proof.
  unfold isDryRun, mgmtDryRun. repeat split.
  - destruct (qval !! "dry-run"); [eauto | done].
  - intros [v Hv]. by rewrite Hv.
  - by destruct (qval !! "dry-run").
  - intros ->. done.
  - intros values. by rewrite lookup_insert_eq.
  - by rewrite lookup_insert_eq.
  - by rewrite lookup_delete_eq.
Qed.

Example isDryRun_false_value :
  isDryRun (list_to_map [("bucket", ["photos"]); ("dry-run", ["false"])]) = true.
Proof. reflexivity. Qed.

Example isDryRun_absent :
  isDryRun (list_to_map [("bucket", ["photos"]); ("dryrun", ["true"])]) = false.
Proof. reflexivity. Qed.

(** ** Object heal *)

(** C5: in every object-heal request the existence check comes before any
    heal.  When the lookup fails the response is that error and the log has
    no heal call; and a heal call, when there is one, directly follows a
    lookup of the same object that succeeded. *)
Theorem HealObject_lookup_before_heal (env : Env) (σ : World) (r : Request) :
  let σ' := run (HealObjectHandler env r) σ in
  (∀ objLayer bucket object err,
     EvGetObjectInfo objLayer bucket object (Some err) ∈ newEvents σ σ' →
     w σ' = w σ ++ [ErrorResponse (toAPIErrorCode env err)] ∧
     (∀ l b o res, EvHealObject l b o res ∉ newEvents σ σ')) ∧
  (∀ objLayer bucket object res,
     EvHealObject objLayer bucket object res ∈ newEvents σ σ' →
     newEvents σ σ' =
       [EvGetObjectInfo objLayer bucket object None;
        EvHealObject objLayer bucket object res]).
Proof.
  intros σ'. subst σ'. unfold HealObjectHandler. unfold_monad.
  split; intros objLayer bucket object err; branches; events; intros Hin;
    members; try done.
  split; [done |]. intros l b ob res' Hin. members.
Qed.

Lemma HealObject_lookup_before_heal_witness :
  w (run (HealObjectHandler Sample.env Sample.healMissingObject) Sample.cluster)
    = [ErrorResponse (ErrCode 1)] ∧
  (∀ l b o res,
     EvHealObject l b o res ∉
       newEvents Sample.cluster
         (run (HealObjectHandler Sample.env Sample.healMissingObject)
              Sample.cluster)).
Proof.
  apply (proj1 (HealObject_lookup_before_heal Sample.env Sample.cluster
                  Sample.healMissingObject)
               1%nat "photos" "gone.jpg" Sample.errObjectNotFound).
  vm_compute. left.
Defined.

(** ** Format heal *)

(** C3: in every format-heal request, when reinitialising the storage
    handles, the format heal or the construction of the new engine fails,
    the response is that error, the storage-engine handle is the one the
    world had and no engine is shut down.  An engine is shut down only after
    the swap: a shutdown in the log is that of the previous instance and has
    the swap before it. *)
Theorem HealFormat_failure_keeps_engine (env : Env) (σ : World) (r : Request) :
  let σ' := run (HealFormatHandler env r) σ in
  (∀ e err,
     e ∈ newEvents σ σ' → failedStep e = Some err →
     w σ' = w σ ++ [ErrorResponse (toAPIErrorCode env err)] ∧
     globalObjectAPI σ' = globalObjectAPI σ ∧
     (∀ o, EvSetGlobalObjectAPI o ∉ newEvents σ σ') ∧
     (∀ o, EvShutdown o ∉ newEvents σ σ')) ∧
  (∀ old before after,
     newEvents σ σ' = before ++ EvShutdown old :: after →
     globalObjectAPI σ = Some old ∧
     ∃ new, EvSetGlobalObjectAPI new ∈ before ∧
            globalObjectAPI σ' = Some new ∧
            (∀ e, e ∈ before → failedStep e = None)).
Proof.
  intros σ'. subst σ'. unfold HealFormatHandler. unfold_monad.
  split.
  - intros e err. branches; events; intros Hin Hfail; members;
      (split; [done |]); (split; [done |]); split; intros o' Hin; members.
  - intros old before after. branches; events; intros Hevs;
      repeat (destruct before as [| ? before]; simplify_eq/=).
    split; [done |]. eexists. split; [| split; [done |]].
    + do 3 right. left.
    + intros e Hin. members; done.
Qed.

Lemma HealFormat_failure_keeps_engine_witness :
  w (run (HealFormatHandler Sample.env Sample.healFormat)
         Sample.clusterWithoutDisks)
    = [ErrorResponse ErrInternalError] ∧
  globalObjectAPI (run (HealFormatHandler Sample.env Sample.healFormat)
                       Sample.clusterWithoutDisks) = Some 1%nat ∧
  (∀ o, EvSetGlobalObjectAPI o ∉
     newEvents Sample.clusterWithoutDisks
       (run (HealFormatHandler Sample.env Sample.healFormat)
            Sample.clusterWithoutDisks)) ∧
  (∀ o, EvShutdown o ∉
     newEvents Sample.clusterWithoutDisks
       (run (HealFormatHandler Sample.env Sample.healFormat)
            Sample.clusterWithoutDisks)).
Proof.
  apply (proj1 (HealFormat_failure_keeps_engine Sample.env
                  Sample.clusterWithoutDisks Sample.healFormat)
               (EvInitStorageDisks [] (Error Sample.errDisksUnavailable))
               Sample.errDisksUnavailable).
  - vm_compute. left.
  - reflexivity.
Defined.

Example HealFormat_success_swaps_then_shuts_down :
  newEvents Sample.cluster
    (run (HealFormatHandler Sample.env Sample.healFormat) Sample.cluster)
  = [EvInitStorageDisks ["/export/d1"] (Ok 7%nat); EvHealFormatXL 7%nat None;
     EvNewXLObjects 7%nat (Ok 8%nat); EvSetGlobalObjectAPI 8%nat;
     EvShutdown 1%nat; EvReInitPeerDisks Sample.threePeers].
Proof. reflexivity. Qed.

(** ** Dry runs *)





Section DryRun.
Context (env : Env) (σ : World) (r : Request).
Hypothesis Hdry : isDryRun (URL_Query r) = true.
Hypothesis Hauth :
  checkRequestAuthType env (history σ)
      (withQuery r (delete mgmtDryRun (URL_Query r)))
    = checkRequestAuthType env (history σ) r.



End DryRun.



Example dry_run_object_heal_trace :
  newEvents Sample.cluster
    (run (HealObjectHandler Sample.env Sample.healObjectDryRun) Sample.cluster)
  = [EvGetObjectInfo 1%nat "photos" "2017/a.jpg" None] ∧
  newEvents Sample.cluster
    (run (HealObjectHandler Sample.env
            (withQuery Sample.healObjectDryRun
               (delete mgmtDryRun (URL_Query Sample.healObjectDryRun))))
         Sample.cluster)
  = [EvGetObjectInfo 1%nat "photos" "2017/a.jpg" None;
     EvHealObject 1%nat "photos" "2017/a.jpg" None].
Proof. split; reflexivity. Qed.

(** ** Lock inventory *)

Lemma forceUnlockAll_run (volLocks : list VolumeLockInfo) (σ : World) :
  forceUnlockAll volLocks σ = (Some tt, logAll (releases volLocks) σ).
Proof.
  revert σ. induction volLocks as [| volLock rest IH]; intros σ; simpl.
  - by rewrite logAll_nil.
  - unfold_monad. by rewrite IH, logAll_log.
Qed.

(** C6: for the same request (same bucket, prefix and duration arguments) in
    the same world, clear-locks makes the listing call list-locks makes and
    answers what list-locks answers.  When the listing is returned, the
    force-release calls of clear-locks are those of the returned records, one
    per record and in their order; when list-locks answers an error,
    clear-locks releases nothing. *)
Theorem ClearLocks_releases_what_ListLocks_returns
    (env : Env) (σ : World) (r : Request) :
  let σl := run (ListLocksHandler env r) σ in
  let σc := run (ClearLocksHandler env r) σ in
  w σc = w σl ∧
  ((∃ peers bucket prefix duration volLocks jsonBytes,
      newEvents σ σl =
        [EvListPeerLocksInfo peers bucket prefix duration (Ok volLocks)] ∧
      json_Marshal env volLocks = Ok jsonBytes ∧
      w σl = w σ ++ [SuccessResponseJSON jsonBytes] ∧
      newEvents σ σc = newEvents σ σl ++ releases volLocks) ∨
   ((∃ code, w σl = w σ ++ [ErrorResponse code]) ∧
    newEvents σ σc = newEvents σ σl ∧
    (∀ bucket object, EvForceUnlock bucket object ∉ newEvents σ σc))).
Proof.
  intros σl σc. subst σl σc.
  unfold ListLocksHandler, ClearLocksHandler, validateLockQueryParams,
    listPeerLocksInfo.
  unfold_monad. branches; rewrite ?forceUnlockAll_run in *; simplify_eq/=;
    events; (split; [done |]).
  all: try (right; split; [by eexists |]; split; [done |];
            intros b o Hin; members; done).
  all: left; by do 6 eexists.
Qed.

Example ClearLocks_sample :
  newEvents Sample.cluster
    (run (ClearLocksHandler Sample.env
            (Sample.request [("bucket", ["photos"]); ("prefix", ["2017/"])] ""))
         Sample.cluster)
  = [EvListPeerLocksInfo Sample.threePeers "photos" "2017/" 0
       (Ok Sample.photoLocks);
     EvForceUnlock "photos" "2017/a.jpg"; EvForceUnlock "photos" "2017/b.jpg"].
Proof. reflexivity. Qed.

(** ** Credential update *)

Lemma logUpdateErrs_run (updateErrs : list (string * error)) (σ : World) :
  logUpdateErrs updateErrs σ = (Some tt, logAll (updateErrLogs updateErrs) σ).
Proof.
  revert σ. induction updateErrs as [| [peer [err |]] rest IH]; intros σ; simpl.
  - by rewrite logAll_nil.
  - unfold_monad. by rewrite IH, logAll_log.
  - unfold_monad. by rewrite IH.
Qed.

(** C9: a set-credentials request with valid credentials, on a server whose
    credentials are not pinned by the environment, is answered by the outcome
    of the local save alone: 200 when the save succeeds, whatever the peers
    answered to the credential update.  The errors of the peers are logged,
    one entry per failed peer, and nothing else is done with them. *)
Theorem ServiceCredentials_peer_errors_only_logged
    (env : Env) (σ : World) (r : Request) (inputData : bytes) (req : setCredsReq) :
  checkRequestAuthType env (history σ) r = ErrNone →
  globalIsEnvCreds σ = false →
  Body r = Ok inputData →
  xml_Unmarshal env inputData = Ok req →
  validateAuthKeys env (Username req) (Password req) = None →
  let σ' := run (ServiceCredentialsHandler env r) σ in
  let creds := {| AccessKey := Username req; SecretKey := Password req |} in
  let updateErrs := doUpdateCredsOnPeers env (history σ) creds in
  ∃ saveErr : error,
    newEvents σ σ' =
      EvUpdateCredsOnPeers creds updateErrs :: updateErrLogs updateErrs
        ++ [EvSetCredential creds; EvSaveConfig saveErr] ∧
    w σ' = w σ ++ [match saveErr with
                   | None => WriteHeader 200
                   | Some _ => ErrorResponse ErrInternalError
                   end].
Proof.
  intros Hauth Henv Hbody Hxml Hkeys σ' creds updateErrs. subst σ'.
  unfold ServiceCredentialsHandler. unfold_monad.
  rewrite Hauth; simpl. rewrite Henv, Hbody, Hxml, Hkeys; simpl.
  rewrite logUpdateErrs_run; simpl.
  match goal with
  | |- context [doSaveConfig env ?h] => exists (doSaveConfig env h)
  end.
  destruct (doSaveConfig env _); events; done.
Qed.

Lemma ServiceCredentials_peer_errors_only_logged_witness :
  ∃ saveErr : error,
    newEvents Sample.cluster
      (run (ServiceCredentialsHandler Sample.env Sample.setCreds) Sample.cluster)
    = EvUpdateCredsOnPeers
        {| AccessKey := "admin-user"; SecretKey := "s3cr3t-k3y-0f-th3-d4y" |}
        [("node2:9000", Some Sample.errUnreachable);
         ("node3:9000", Some Sample.errUnreachable)]
      :: updateErrLogs [("node2:9000", Some Sample.errUnreachable);
                        ("node3:9000", Some Sample.errUnreachable)]
      ++ [EvSetCredential
            {| AccessKey := "admin-user"; SecretKey := "s3cr3t-k3y-0f-th3-d4y" |};
          EvSaveConfig saveErr] ∧
    w (run (ServiceCredentialsHandler Sample.env Sample.setCreds) Sample.cluster)
    = [] ++ [match saveErr with
             | None => WriteHeader 200
             | Some _ => ErrorResponse ErrInternalError
             end].
Proof.
  apply (ServiceCredentials_peer_errors_only_logged Sample.env Sample.cluster
           Sample.setCreds (Sample.encode "admin-user")
           {| Username := "admin-user"; Password := "s3cr3t-k3y-0f-th3-d4y" |});
    reflexivity.
Defined.

Example ServiceCredentials_all_peers_fail_still_200 :
  w (run (ServiceCredentialsHandler Sample.env Sample.setCreds) Sample.cluster)
  = [WriteHeader 200].
Proof. reflexivity. Qed.

(** ** Validation of the query parameters *)

Section Validation.
Context (env : Env).

Lemma ListLocks_invalid_bucket (σ : World) (r : Request) :
  IsValidBucketName env (Get (URL_Query r) mgmtBucket) = false →
  rejectedBeforeContact σ (run (ListLocksHandler env r) σ)
    ErrInvalidBucketName (checkRequestAuthType env (history σ) r = ErrNone).
Proof.
  intros Hbad. unfold rejectedBeforeContact, ListLocksHandler,
    validateLockQueryParams.
  unfold_monad. rewrite Hbad. simpl.
  branches; (split; [done |]); eexists; (split; [| split; [done |]]);
    done.
Qed.

Lemma ClearLocks_invalid_bucket (σ : World) (r : Request) :
  IsValidBucketName env (Get (URL_Query r) mgmtBucket) = false →
  rejectedBeforeContact σ (run (ClearLocksHandler env r) σ)
    ErrInvalidBucketName (checkRequestAuthType env (history σ) r = ErrNone).
Proof.
  intros Hbad. unfold rejectedBeforeContact, ClearLocksHandler,
    validateLockQueryParams.
  unfold_monad. rewrite Hbad. simpl.
  branches; (split; [done |]); eexists; (split; [| split; [done |]]);
    done.
Qed.

Lemma ListObjectsHeal_invalid_bucket (σ : World) (r : Request) :
  IsValidBucketName env (Get (URL_Query r) mgmtBucket) = false →
  rejectedBeforeContact σ (run (ListObjectsHealHandler env r) σ)
    ErrInvalidBucketName
    (globalObjectAPI σ ≠ None ∧
     checkRequestAuthType env (history σ) r = ErrNone).
Proof.
  intros Hbad. unfold rejectedBeforeContact, ListObjectsHealHandler,
    validateHealQueryParams.
  unfold_monad. rewrite Hbad. simpl.
  branches; (split; [done |]); eexists; (split; [| split; [done |]]);
    try done; by intros [].
Qed.

Lemma validateLockQueryParams_accepts (vars : Values) (σ : World)
    (duration : Duration) :
  IsValidBucketName env (Get vars mgmtBucket) = true →
  IsValidObjectPrefix env (Get vars mgmtPrefix) = true →
  ParseDuration env (if decide (Get vars mgmtLockDuration = "") then "0s"
                     else Get vars mgmtLockDuration) = Ok duration →
  validateLockQueryParams env vars σ
    = (Some (Get vars mgmtBucket, Get vars mgmtPrefix, duration, ErrNone), σ).
Proof.
  intros Hbucket Hprefix Hduration. unfold validateLockQueryParams.
  rewrite Hbucket, Hprefix. simpl. by rewrite Hduration.
Qed.

Lemma validateLockQueryParams_bad_duration (vars : Values) (σ : World)
    (err : Err) :
  IsValidBucketName env (Get vars mgmtBucket) = true →
  IsValidObjectPrefix env (Get vars mgmtPrefix) = true →
  Get vars mgmtLockDuration ≠ "" →
  ParseDuration env (Get vars mgmtLockDuration) = Error err →
  validateLockQueryParams env vars σ
    = (Some ("", "", 0, ErrInvalidDuration),
       log (EvErrorIf err "Failed to parse duration passed as query value.") σ).
Proof.
  intros Hbucket Hprefix Hne Hduration. unfold validateLockQueryParams.
  rewrite Hbucket, Hprefix. simpl.
  destruct (decide _) as [| _]; [done |]. by rewrite Hduration.
Qed.

End Validation.

(** C7: with validators that turn down the empty bucket name and accept the
    empty prefix (the remarks of lines 292, 296, 411 and 416), and a duration
    parser that reads "0s" as zero:
    - list-locks, clear-locks and list-objects-heal answer a request whose
      bucket name is invalid with an error and call nothing outside the
      handler; the error is the bucket-name error once the request is
      authenticated (and, for the heal listing, the server initialised);
    - a missing bucket parameter is the empty name, so it is turned down;
    - a prefix that is empty, or that the prefix validator accepts, passes
      the validation of both lock and heal listings and is returned as it is;
    - whatever that prefix is, a missing or empty duration is read as "0s",
      the zero duration, and a duration that parses is returned as parsed;
    - with a missing or empty duration the two lock handlers ask the peers
      for the locks of the bucket and prefix with duration zero;
    - a duration that does not parse makes the lock validation, and the two
      lock handlers, answer the invalid-duration error with no peer called. *)
Theorem query_filter_validation (env : Env) :
  IsValidBucketName env "" = false →
  IsValidObjectPrefix env "" = true →
  ParseDuration env "0s" = Ok 0 →
  (∀ σ r,
     IsValidBucketName env (Get (URL_Query r) mgmtBucket) = false →
     rejectedBeforeContact σ (run (ListLocksHandler env r) σ)
       ErrInvalidBucketName (checkRequestAuthType env (history σ) r = ErrNone) ∧
     rejectedBeforeContact σ (run (ClearLocksHandler env r) σ)
       ErrInvalidBucketName (checkRequestAuthType env (history σ) r = ErrNone) ∧
     rejectedBeforeContact σ (run (ListObjectsHealHandler env r) σ)
       ErrInvalidBucketName
       (globalObjectAPI σ ≠ None ∧
        checkRequestAuthType env (history σ) r = ErrNone)) ∧
  (∀ vars : Values,
     vars !! mgmtBucket = None ∨ Get vars mgmtBucket = "" →
     IsValidBucketName env (Get vars mgmtBucket) = false) ∧
  (∀ (vars : Values) σ,
     IsValidBucketName env (Get vars mgmtBucket) = true →
     vars !! mgmtPrefix = None ∨ Get vars mgmtPrefix = "" ∨
       IsValidObjectPrefix env (Get vars mgmtPrefix) = true →
     (vars !! mgmtLockDuration = None ∨ Get vars mgmtLockDuration = "" →
      validateLockQueryParams env vars σ
        = (Some (Get vars mgmtBucket, Get vars mgmtPrefix, 0, ErrNone), σ)) ∧
     (∀ duration,
        Get vars mgmtLockDuration ≠ "" →
        ParseDuration env (Get vars mgmtLockDuration) = Ok duration →
        validateLockQueryParams env vars σ
          = (Some (Get vars mgmtBucket, Get vars mgmtPrefix, duration,
                   ErrNone), σ)) ∧
     (∀ maxKey,
        Atoi env (Get vars mgmtMaxKey) = Ok maxKey →
        validateListObjectsArgs env (Get vars mgmtPrefix)
          (Get vars mgmtMarker) (Get vars mgmtDelimiter) maxKey = ErrNone →
        validateHealQueryParams env vars
          = (Get vars mgmtBucket, Get vars mgmtPrefix, Get vars mgmtMarker,
             Get vars mgmtDelimiter, maxKey, ErrNone))) ∧
  (∀ σ r,
     checkRequestAuthType env (history σ) r = ErrNone →
     IsValidBucketName env (Get (URL_Query r) mgmtBucket) = true →
     URL_Query r !! mgmtPrefix = None ∨ Get (URL_Query r) mgmtPrefix = "" ∨
       IsValidObjectPrefix env (Get (URL_Query r) mgmtPrefix) = true →
     URL_Query r !! mgmtLockDuration = None ∨
       Get (URL_Query r) mgmtLockDuration = "" →
     ∀ handler, handler = ListLocksHandler env ∨ handler = ClearLocksHandler env →
       head (newEvents σ (run (handler r) σ))
       = Some (EvListPeerLocksInfo (globalAdminPeers σ)
                 (Get (URL_Query r) mgmtBucket) (Get (URL_Query r) mgmtPrefix) 0
                 (doListPeerLocksInfo env (history σ) (globalAdminPeers σ)
                    (Get (URL_Query r) mgmtBucket)
                    (Get (URL_Query r) mgmtPrefix) 0))) ∧
  (∀ σ r err,
     checkRequestAuthType env (history σ) r = ErrNone →
     IsValidBucketName env (Get (URL_Query r) mgmtBucket) = true →
     IsValidObjectPrefix env (Get (URL_Query r) mgmtPrefix) = true →
     Get (URL_Query r) mgmtLockDuration ≠ "" →
     ParseDuration env (Get (URL_Query r) mgmtLockDuration) = Error err →
     ∀ handler, handler = ListLocksHandler env ∨ handler = ClearLocksHandler env →
       w (run (handler r) σ) = w σ ++ [ErrorResponse ErrInvalidDuration] ∧
       newEvents σ (run (handler r) σ)
         = [EvErrorIf err "Failed to parse duration passed as query value."]).
Proof.
  intros Hbucket0 Hprefix0 Hzero.
  assert (Hempty : ∀ (vars : Values) key,
            vars !! key = None ∨ Get vars key = "" → Get vars key = "").
  { intros vars key [Habsent | ?]; [| done]. unfold Get. by rewrite Habsent. }
  assert (Hprefix : ∀ vars : Values,
            vars !! mgmtPrefix = None ∨ Get vars mgmtPrefix = "" ∨
              IsValidObjectPrefix env (Get vars mgmtPrefix) = true →
            IsValidObjectPrefix env (Get vars mgmtPrefix) = true).
  { intros vars [Habsent | [Hnone | ?]]; [| | done].
    - by rewrite (Hempty vars mgmtPrefix (or_introl Habsent)).
    - by rewrite Hnone. }
  assert (Hdefault : ∀ (vars : Values) σ,
            IsValidBucketName env (Get vars mgmtBucket) = true →
            IsValidObjectPrefix env (Get vars mgmtPrefix) = true →
            Get vars mgmtLockDuration = "" →
            validateLockQueryParams env vars σ
            = (Some (Get vars mgmtBucket, Get vars mgmtPrefix, 0, ErrNone), σ)).
  { intros vars σ Hvalid Hp Hduration.
    apply validateLockQueryParams_accepts; try done.
    rewrite Hduration. by destruct (decide _). }
  split; [| split; [| split; [| split]]].
  - intros σ r Hbad. split; [| split].
    + by apply ListLocks_invalid_bucket.
    + by apply ClearLocks_invalid_bucket.
    + by apply ListObjectsHeal_invalid_bucket.
  - intros vars Hbucket. by rewrite (Hempty vars mgmtBucket Hbucket).
  - intros vars σ Hvalid Hp%Hprefix. split; [| split].
    + intros Hduration%Hempty. by apply Hdefault.
    + intros duration Hne Hduration.
      apply validateLockQueryParams_accepts; try done.
      by destruct (decide _).
    + intros maxKey Hatoi Hargs. unfold validateHealQueryParams.
      rewrite Hvalid, Hp, Hatoi. simpl. by rewrite Hargs.
  - intros σ r Hauth Hvalid Hp%Hprefix Hduration%Hempty handler Hhandler.
    pose proof (Hdefault (URL_Query r) σ Hvalid Hp Hduration) as Hrun.
    destruct Hhandler as [-> | ->];
      unfold ListLocksHandler, ClearLocksHandler, listPeerLocksInfo;
      unfold_monad; rewrite Hauth; simpl; rewrite Hrun; simpl;
      branches; rewrite ?forceUnlockAll_run in *; simplify_eq/=; events;
      done.
  - intros σ r err Hauth Hvalid Hp Hne Hduration handler Hhandler.
    pose proof (validateLockQueryParams_bad_duration env (URL_Query r) σ err
                  Hvalid Hp Hne Hduration) as Hrun.
    destruct Hhandler as [-> | ->];
      unfold ListLocksHandler, ClearLocksHandler; unfold_monad;
      rewrite Hauth; simpl; rewrite Hrun; simpl; events; done.
Qed.

Lemma query_filter_validation_witness :
  rejectedBeforeContact Sample.cluster
    (run (ListLocksHandler Sample.env Sample.listLocksNoBucket) Sample.cluster)
    ErrInvalidBucketName
    (checkRequestAuthType Sample.env (history Sample.cluster)
       Sample.listLocksNoBucket = ErrNone).
Proof.
  refine (proj1 (proj1 (query_filter_validation Sample.env _ _ _)
                   Sample.cluster Sample.listLocksNoBucket _));
    reflexivity.
Defined.

Example ListLocks_bad_duration_sample :
  run (ListLocksHandler Sample.env Sample.listLocksBadDuration) Sample.cluster
  = write (ErrorResponse ErrInvalidDuration)
      (log (EvErrorIf (errorString "time: invalid duration")
              "Failed to parse duration passed as query value.")
           Sample.cluster).
Proof. reflexivity. Qed.

(** A max-key value that [strconv.Atoi] cannot read is turned down by the
    handler itself, whatever the validator of the listing arguments does. *)
Lemma ListObjectsHeal_unparsed_max_key
    (env : Env) (σ : World) (r : Request) (objLayer : ObjectLayer) (err : Err) :
  globalObjectAPI σ = Some objLayer →
  checkRequestAuthType env (history σ) r = ErrNone →
  IsValidBucketName env (Get (URL_Query r) mgmtBucket) = true →
  IsValidObjectPrefix env (Get (URL_Query r) mgmtPrefix) = true →
  Atoi env (Get (URL_Query r) mgmtMaxKey) = Error err →
  ListObjectsHealHandler env r σ
    = (Some tt, write (ErrorResponse ErrInvalidMaxKeys) σ).
Proof.
  intros Hobj Hauth Hbucket Hprefix Hatoi.
  unfold ListObjectsHealHandler, validateHealQueryParams. unfold_monad.
  rewrite Hobj, Hauth; simpl. by rewrite Hbucket, Hprefix, Hatoi.
Qed.

(** C8: a list-objects-heal request whose max-key value does not parse as a
    non-negative integer is turned down: the handler returns normally, the
    storage engine is not called and the one response is an error.  For a
    request that passes the checks made before the max-key (server
    initialised, signature, bucket name, prefix) the error is the
    invalid-max-keys error.  The integer parse is the handler's own test; a
    negative integer is turned down by the validator of the listing
    arguments, which is assumed to refuse negative max-keys. *)
Theorem ListObjectsHeal_invalid_max_key
    (env : Env) (σ : World) (r : Request) :
  (∀ prefix marker delimiter maxKeys,
     maxKeys < 0 →
     validateListObjectsArgs env prefix marker delimiter maxKeys
       = ErrInvalidMaxKeys) →
  notNonNegativeInteger env (Get (URL_Query r) mgmtMaxKey) →
  (ListObjectsHealHandler env r σ).1 = Some tt ∧
  rejectedBeforeContact σ (run (ListObjectsHealHandler env r) σ)
    ErrInvalidMaxKeys
    (globalObjectAPI σ ≠ None ∧
     checkRequestAuthType env (history σ) r = ErrNone ∧
     IsValidBucketName env (Get (URL_Query r) mgmtBucket) = true ∧
     IsValidObjectPrefix env (Get (URL_Query r) mgmtPrefix) = true).
Proof.
  intros Hneg Hbad. unfold notNonNegativeInteger in Hbad.
  unfold rejectedBeforeContact, ListObjectsHealHandler, validateHealQueryParams.
  unfold_monad.
  destruct (Atoi env (Get (URL_Query r) mgmtMaxKey)) as [maxKey | err];
    rewrite ?(Hneg _ _ _ maxKey Hbad);
    branches; (split; [done |]); (split; [done |]); eexists;
    (split; [| split; [done |]]); try done;
    intros (? & ? & Hbucket & Hprefix);
    rewrite ?Hbucket, ?Hprefix in *; simplify_eq/=; congruence.
Qed.

Lemma ListObjectsHeal_invalid_max_key_witness :
  (ListObjectsHealHandler Sample.env Sample.listHealBadMaxKey Sample.cluster).1
    = Some tt ∧
  rejectedBeforeContact Sample.cluster
    (run (ListObjectsHealHandler Sample.env Sample.listHealBadMaxKey)
         Sample.cluster)
    ErrInvalidMaxKeys
    (globalObjectAPI Sample.cluster ≠ None ∧
     checkRequestAuthType Sample.env (history Sample.cluster)
       Sample.listHealBadMaxKey = ErrNone ∧
     IsValidBucketName Sample.env
       (Get (URL_Query Sample.listHealBadMaxKey) mgmtBucket) = true ∧
     IsValidObjectPrefix Sample.env
       (Get (URL_Query Sample.listHealBadMaxKey) mgmtPrefix) = true).
Proof.
  apply (ListObjectsHeal_invalid_max_key Sample.env Sample.cluster
           Sample.listHealBadMaxKey).
  - intros prefix marker delimiter maxKeys Hlt. simpl.
    unfold Sample.checkListObjectsArgs. by destruct (decide _).
  - vm_compute. exact I.
Defined.

Example ListObjectsHeal_bad_max_key_sample :
  run (ListObjectsHealHandler Sample.env Sample.listHealBadMaxKey) Sample.cluster
  = write (ErrorResponse ErrInvalidMaxKeys) Sample.cluster.
Proof. reflexivity. Qed.

Example Atoi_abc : Sample.parseInt "abc" = Error (errorString "invalid syntax").
Proof. reflexivity. Qed.

Example ListObjectsHeal_negative_max_key :
  run (ListObjectsHealHandler Sample.env
         (Sample.request [("bucket", ["photos"]); ("max-key", ["-5"])] ""))
      Sample.cluster
  = write (ErrorResponse ErrInvalidMaxKeys) Sample.cluster.
Proof. reflexivity. Qed.

(** ** Configuration commit *)

Section FanOut.
Context {A : Type} (f : list Event → adminPeer → A)
        (ev : adminPeer → A → Event).

Lemma invokePeers_call (peers : list adminPeer) (σ : World) :
  invokePeers (λ peer, call (λ h, f h peer) (ev peer)) peers σ
  = (Some (peerResults f ev (history σ) peers),
     logAll (peerEvents f ev (history σ) peers) σ).
Proof.
  revert σ. induction peers as [| peer rest IH]; intros σ; simpl.
  - by rewrite logAll_nil.
  - unfold_monad. rewrite IH. simpl. by rewrite logAll_log.
Qed.

Lemma length_peerResults (h : list Event) (peers : list adminPeer) :
  length (peerResults f ev h peers) = length peers.
Proof.
  revert h. induction peers as [| peer rest IH]; intros h; simpl; [done |].
  by rewrite IH.
Qed.

(** Reading the results back from the log entries. *)
Lemma omap_peerEvents_Some (g : Event → option A) (h : list Event)
    (peers : list adminPeer) :
  (∀ peer a, g (ev peer a) = Some a) →
  omap g (peerEvents f ev h peers) = peerResults f ev h peers.
Proof.
  intros Hg. revert h. induction peers as [| peer rest IH]; intros h; simpl;
    [done |].
  by rewrite Hg, IH.
Qed.

Lemma omap_peerEvents_None {B : Type} (g : Event → option B) (h : list Event)
    (peers : list adminPeer) :
  (∀ peer a, g (ev peer a) = None) →
  omap g (peerEvents f ev h peers) = [].
Proof.
  intros Hg. revert h. induction peers as [| peer rest IH]; intros h; simpl;
    [done |].
  by rewrite Hg, IH.
Qed.

Lemma peerEvents_elem (h : list Event) (peers : list adminPeer) (e : Event) :
  e ∈ peerEvents f ev h peers → ∃ peer a, e = ev peer a.
Proof.
  revert h. induction peers as [| peer rest IH]; intros h; simpl; intros Hin.
  - by apply elem_of_nil in Hin.
  - apply elem_of_cons in Hin as [-> | Hin]; [by eauto | by eapply IH].
Qed.
End FanOut.

Section Quorum.
Context (env : Env).

(** The reducer answers nil exactly when the threshold is met. *)
Lemma reduceWriteQuorumErrs_nil (errs : list error) (ignored : list Err)
    (writeQuorum : Z) :
  reduceWriteQuorumErrs errs ignored writeQuorum = None
  ↔ writeQuorum ≤ successes errs.
Proof.
  unfold reduceWriteQuorumErrs, evaluate.
  destruct (decide _) as [Hle | Hnle]; [done |].
  split; [| done]. by destruct (firstError errs).
Qed.

(** On a length, Go's truncating division is the floor. *)
Lemma configQuorum_floor (σ : World) :
  configQuorum σ = len (globalAdminPeers σ) `div` 2 + 1.
Proof.
  unfold configQuorum, len. rewrite Z.quot_div_nonneg; lia.
Qed.

Lemma successes_le_len (errs : list error) : successes errs ≤ len errs.
Proof.
  unfold successes, len. apply inj_le, length_filter.
Qed.

(** With one slot per peer the response loop stays in range. *)
Lemma buildNodeResults_in_range (peers : list adminPeer) (errs : list error)
    (i : nat) :
  (i + length errs ≤ length peers)%nat →
  buildNodeResults env peers errs i
  = Some (zip_with (summaryOf env) (drop i peers) errs).
Proof.
  revert i. induction errs as [| err rest IH]; intros i Hlen; simpl in *.
  - by destruct (drop i peers).
  - destruct (peers !! i) as [peer |] eqn:Hpeer.
    + rewrite IH by lia. by rewrite (drop_S _ _ _ Hpeer).
    + apply lookup_ge_None in Hpeer. lia.
Qed.

(** Beyond the peers, the loop panics. *)
Lemma buildNodeResults_out_of_range (peers : list adminPeer)
    (errs : list error) :
  (length peers < length errs)%nat →
  buildNodeResults env peers errs 0 = None.
Proof.
  generalize 0%nat as i. intros i Hlen.
  assert (length (drop i peers) < length errs)%nat as Hdrop
    by (rewrite length_drop; lia).
  clear Hlen. revert i Hdrop.
  induction errs as [| err rest IH]; intros i Hlen; simpl in *; [lia |].
  destruct (peers !! i) as [peer |] eqn:Hpeer; [| done].
  rewrite (drop_S _ _ _ Hpeer) in Hlen. simpl in Hlen.
  rewrite IH; [done | lia].
Qed.

Lemma writeSetConfigResponse_run (peers : list adminPeer) (errs : list error)
    (status : bool) (σ : World) :
  length errs = length peers →
  writeSetConfigResponse env peers errs status σ
  = (Some tt,
     write (setConfigReply env
              {| NodeResults := zip_with (summaryOf env) peers errs;
                 Status := status |}) σ).
Proof.
  intros Hlen. unfold writeSetConfigResponse, setConfigReply.
  rewrite buildNodeResults_in_range by (simpl; lia). simpl.
  by destruct (json_Encode env _).
Qed.
End Quorum.

Section SetConfig.
Context (env : Env) (σ : World) (r : Request) (objectAPI : ObjectLayer)
        (configBytes : bytes).
Hypothesis Hinit : globalObjectAPI σ = Some objectAPI.
Hypothesis Hauth : checkRequestAuthType env (history σ) r = ErrNone.
Hypothesis Hbody : Body r = Ok configBytes.

Let peers := globalAdminPeers σ.
Let staged := stagingEvents env σ configBytes.
Let committed := commitEvents env σ configBytes.

Lemma length_stagingErrs : length (stagingErrs staged) = length peers.
Proof.
  unfold stagingErrs, staged, stagingEvents.
  rewrite omap_peerEvents_Some by done. apply length_peerResults.
Qed.

Lemma length_commitErrs : length (commitErrs committed) = length peers.
Proof.
  unfold commitErrs, committed, commitEvents.
  rewrite omap_peerEvents_Some by done. apply length_peerResults.
Qed.

Lemma commitErrs_staged : commitErrs staged = [].
Proof. unfold commitErrs, staged, stagingEvents. by apply omap_peerEvents_None. Qed.

Lemma stagingErrs_committed : stagingErrs committed = [].
Proof.
  unfold stagingErrs, committed, commitEvents. by apply omap_peerEvents_None.
Qed.

Lemma writeTmpConfigPeers_run :
  writeTmpConfigPeers env peers (tmpFileNameOf env σ) configBytes
    (log (uuidEvent env σ) σ)
  = (Some (stagingErrs staged), logAll staged (log (uuidEvent env σ) σ)).
Proof.
  unfold writeTmpConfigPeers. rewrite invokePeers_call.
  unfold stagingErrs, staged, stagingEvents.
  by rewrite omap_peerEvents_Some.
Qed.

Lemma commitConfigPeers_run :
  commitConfigPeers env peers (tmpFileNameOf env σ)
    (log lockEvent (logAll staged (log (uuidEvent env σ) σ)))
  = (Some (commitErrs committed),
     logAll committed
       (log lockEvent (logAll staged (log (uuidEvent env σ) σ)))).
Proof.
  unfold commitConfigPeers. rewrite invokePeers_call.
  unfold commitErrs, committed, commitEvents.
  rewrite omap_peerEvents_Some by done. simpl.
  by rewrite <- !app_assoc.
Qed.

(** The run of the handler on a request that reaches the staging step. *)
Lemma SetConfigHandler_run :
  SetConfigHandler env r σ
  = (Some tt,
     if decide (configQuorum σ ≤ successes (stagingErrs staged)) then
       log unlockEvent
         (if decide (configQuorum σ ≤ successes (commitErrs committed)) then
            log (EvSendServiceCmd peers serviceRestart)
              (write (setConfigReply env
                        {| NodeResults := zip_with (summaryOf env) peers
                                            (commitErrs committed);
                           Status := true |})
                 (logAll committed
                    (log lockEvent (logAll staged (log (uuidEvent env σ) σ)))))
          else
            write (setConfigReply env
                     {| NodeResults := zip_with (summaryOf env) peers
                                         (commitErrs committed);
                        Status := false |})
              (logAll committed
                 (log lockEvent (logAll staged (log (uuidEvent env σ) σ)))))
     else
       write (setConfigReply env
                {| NodeResults := zip_with (summaryOf env) peers
                                    (stagingErrs staged);
                   Status := false |})
         (logAll staged (log (uuidEvent env σ) σ))).
Proof.
  unfold SetConfigHandler.
  unfold_monad. rewrite Hinit, Hauth; simpl. rewrite Hbody; simpl.
  pose proof writeTmpConfigPeers_run as Hstage.
  pose proof commitConfigPeers_run as Hcommit.
  unfold tmpFileNameOf, uuidEvent, peers, lockEvent in Hstage, Hcommit.
  rewrite Hstage.
  destruct (reduceWriteQuorumErrs (stagingErrs staged) [] _) as [e |] eqn:Hq1.
  - destruct (decide _) as [Hle | _].
    + apply (proj2 (reduceWriteQuorumErrs_nil _ [] _)) in Hle.
      unfold configQuorum in Hle. congruence.
    + by rewrite writeSetConfigResponse_run by apply length_stagingErrs.
  - apply reduceWriteQuorumErrs_nil in Hq1.
    destruct (decide _) as [_ | Hnle]; [| done].
    rewrite Hcommit.
    destruct (reduceWriteQuorumErrs (commitErrs committed) [] _) as [e |]
      eqn:Hq2.
    + destruct (decide _) as [Hle | _].
      * apply (proj2 (reduceWriteQuorumErrs_nil _ [] _)) in Hle.
        unfold configQuorum in Hle. congruence.
      * by rewrite writeSetConfigResponse_run by apply length_commitErrs.
    + apply reduceWriteQuorumErrs_nil in Hq2.
      destruct (decide _) as [_ | Hnle]; [| done].
      by rewrite writeSetConfigResponse_run by apply length_commitErrs.
Qed.
End SetConfig.

Lemma lookup_peerEvents {A : Type} (f : list Event → adminPeer → A)
    (ev : adminPeer → A → Event) (h : list Event) (peers : list adminPeer)
    (i : nat) (peer : adminPeer) :
  peers !! i = Some peer →
  ∃ a, peerEvents f ev h peers !! i = Some (ev peer a) ∧
       peerResults f ev h peers !! i = Some a.
Proof.
  revert h i. induction peers as [| p rest IH]; intros h i Hi; [done |].
  destruct i as [| i]; simpl in *.
  - simplify_eq. by eexists.
  - by apply IH.
Qed.

Section SetConfigLog.
Context (env : Env) (σ : World) (r : Request) (objectAPI : ObjectLayer)
        (configBytes : bytes).
Hypothesis Hinit : globalObjectAPI σ = Some objectAPI.
Hypothesis Hauth : checkRequestAuthType env (history σ) r = ErrNone.
Hypothesis Hbody : Body r = Ok configBytes.

Let peers := globalAdminPeers σ.
Let staged := stagingEvents env σ configBytes.
Let committed := commitEvents env σ configBytes.
Let σ' := run (SetConfigHandler env r) σ.

(** The calls of the request, phase by phase. *)
Lemma SetConfig_events :
  newEvents σ σ'
  = uuidEvent env σ :: staged ++
      (if decide (configQuorum σ ≤ successes (stagingErrs staged)) then
         lockEvent :: committed ++
           (if decide (configQuorum σ ≤ successes (commitErrs committed))
            then [EvSendServiceCmd peers serviceRestart] else [])
           ++ [unlockEvent]
       else []).
Proof.
  unfold σ', run. rewrite (SetConfigHandler_run env σ r objectAPI configBytes)
    by done.
  fold peers staged committed.
  repeat destruct (decide _); events; by rewrite ?app_nil_r.
Qed.

(** The one response of the request. *)
Lemma SetConfig_response :
  w σ'
  = w σ ++
      [setConfigReply env
         {| NodeResults :=
              zip_with (summaryOf env) peers
                (if decide (configQuorum σ ≤ successes (stagingErrs staged))
                 then commitErrs committed else stagingErrs staged);
            Status :=
              bool_decide (configQuorum σ ≤ successes (stagingErrs staged))
              && bool_decide
                   (configQuorum σ ≤ successes (commitErrs committed)) |}].
Proof.
  unfold σ', run. rewrite (SetConfigHandler_run env σ r objectAPI configBytes)
    by done.
  fold peers staged committed.
  repeat case_bool_decide; repeat destruct (decide _); try done; by events.
Qed.

Lemma staged_elem (e : Event) :
  e ∈ staged →
  ∃ peer res, e = EvWriteTmpConfig peer (tmpFileNameOf env σ) configBytes res.
Proof. unfold staged, stagingEvents. apply peerEvents_elem. Qed.

Lemma committed_elem (e : Event) :
  e ∈ committed → ∃ peer res, e = EvCommitConfig peer (tmpFileNameOf env σ) res.
Proof. unfold committed, commitEvents. apply peerEvents_elem. Qed.

(** The staging slots read from the log are those of the staging fan-out,
    one per peer. *)
Lemma stagingErrs_newEvents :
  stagingErrs (newEvents σ σ') = stagingErrs staged.
Proof.
  rewrite SetConfig_events.
  pose proof (stagingErrs_committed env σ configBytes) as Hc.
  fold committed in Hc. unfold stagingErrs in *. simpl.
  rewrite omap_app. repeat destruct (decide _); simpl;
    rewrite ?omap_app, ?Hc, ?app_nil_r; done.
Qed.

Lemma commitErrs_newEvents :
  commitErrs (newEvents σ σ')
  = if decide (configQuorum σ ≤ successes (stagingErrs staged))
    then commitErrs committed else [].
Proof.
  rewrite SetConfig_events.
  pose proof (commitErrs_staged env σ configBytes) as Hs.
  fold staged in Hs. unfold commitErrs in *. simpl.
  rewrite omap_app, Hs. repeat destruct (decide _); simpl;
    rewrite ?omap_app, ?app_nil_r; simpl; rewrite ?app_nil_r; done.
Qed.
End SetConfigLog.

(** C1: in a set-config request over N peers both quorum checks use the
    threshold floor(N/2)+1, and each succeeds exactly when at least that
    many of the N per-peer slots are error-free.  The staging check
    succeeding is the handler going on to take the lock; both checks
    succeeding is the restart being sent and the status of the response
    being true. *)
Theorem SetConfig_quorum_threshold
    (env : Env) (σ : World) (r : Request) (objectAPI : ObjectLayer)
    (configBytes : bytes) :
  globalObjectAPI σ = Some objectAPI →
  checkRequestAuthType env (history σ) r = ErrNone →
  Body r = Ok configBytes →
  let σ' := run (SetConfigHandler env r) σ in
  let evs := newEvents σ σ' in
  let N := len (globalAdminPeers σ) in
  let stagingOK := N `div` 2 + 1 ≤ successes (stagingErrs evs) in
  let commitOK := N `div` 2 + 1 ≤ successes (commitErrs evs) in
  (∀ errs : list error,
     reduceWriteQuorumErrs errs [] (N `quot` 2 + 1) = None
     ↔ N `div` 2 + 1 ≤ successes errs) ∧
  len (stagingErrs evs) = N ∧
  (lockEvent ∈ evs ↔ stagingOK) ∧
  (stagingOK → len (commitErrs evs) = N) ∧
  (EvSendServiceCmd (globalAdminPeers σ) serviceRestart ∈ evs
   ↔ stagingOK ∧ commitOK) ∧
  (∃ nodeResults,
     w σ' = w σ ++ [setConfigReply env
                      {| NodeResults := nodeResults;
                         Status := bool_decide (stagingOK ∧ commitOK) |}]).
Proof.
  intros Hinit Hauth Hbody σ' evs N stagingOK commitOK.
  subst stagingOK commitOK evs σ'.
  rewrite (stagingErrs_newEvents env σ r objectAPI configBytes) by done.
  rewrite (commitErrs_newEvents env σ r objectAPI configBytes) by done.
  rewrite (SetConfig_events env σ r objectAPI configBytes) by done.
  rewrite (SetConfig_response env σ r objectAPI configBytes) by done.
  pose proof (configQuorum_floor σ) as Hq. fold N in Hq. rewrite <- Hq.
  pose proof (length_stagingErrs env σ configBytes) as Hls.
  pose proof (length_commitErrs env σ configBytes) as Hlc.
  pose proof (staged_elem env σ configBytes) as Hse.
  pose proof (committed_elem env σ configBytes) as Hce.
  set (staged := stagingEvents env σ configBytes) in *.
  set (committed := commitEvents env σ configBytes) in *.
  unfold lockEvent, unlockEvent, uuidEvent in *.
  split; [| split; [| split; [| split; [| split]]]].
  - intros errs. rewrite reduceWriteQuorumErrs_nil.
    unfold configQuorum. by fold N.
  - unfold N, len. by rewrite Hls.
  - destruct (decide (configQuorum σ ≤ successes (stagingErrs staged)))
      as [Hle | Hnle].
    + split; [done |]. intros _. right. apply elem_of_app. right. left.
    + split; [| done]. rewrite app_nil_r. intros Hin.
      apply elem_of_cons in Hin as [Heq | Hin]; [done |].
      by destruct (Hse _ Hin) as (peer & res & ?).
  - intros Hle. destruct (decide _); [| done]. unfold N, len. by rewrite Hlc.
  - destruct (decide (configQuorum σ ≤ successes (stagingErrs staged)))
      as [Hle | Hnle].
    + destruct (decide (configQuorum σ ≤ successes (commitErrs committed)))
        as [Hle' | Hnle'].
      * split; [done |]. intros _. right. apply elem_of_app. right. right.
        apply elem_of_app. right. left.
      * split; [| by intros []]. intros Hin.
        apply elem_of_cons in Hin as [Heq | Hin]; [done |].
        apply elem_of_app in Hin as [Hin | Hin];
          [by destruct (Hse _ Hin) as (peer & res & ?) |].
        apply elem_of_cons in Hin as [Heq | Hin]; [done |].
        apply elem_of_app in Hin as [Hin | Hin];
          [by destruct (Hce _ Hin) as (peer & res & ?) |].
        simpl in Hin. members.
    + split.
      * rewrite app_nil_r. intros Hin.
        apply elem_of_cons in Hin as [Heq | Hin]; [done |].
        by destruct (Hse _ Hin) as (peer & res & ?).
      * by intros [].
  - destruct (decide (configQuorum σ ≤ successes (stagingErrs staged)));
      eexists; do 3 f_equal;
      repeat case_bool_decide; simpl in *; try done; tauto.
Qed.

Lemma SetConfig_quorum_threshold_witness :
  lockEvent ∈ newEvents Sample.cluster
                (run (SetConfigHandler Sample.env Sample.setConfig) Sample.cluster)
  ↔ len (globalAdminPeers Sample.cluster) `div` 2 + 1
    ≤ successes
        (stagingErrs
           (newEvents Sample.cluster
              (run (SetConfigHandler Sample.env Sample.setConfig)
                   Sample.cluster))).
Proof.
  apply (SetConfig_quorum_threshold Sample.env Sample.cluster Sample.setConfig
           1%nat (Sample.encode "{ version: 13 }")); reflexivity.
Defined.

Example quorum_of_five_needs_three :
  len Sample.fivePeers `quot` 2 + 1 = 3 ∧
  reduceWriteQuorumErrs
    [None; Some Sample.errUnreachable; None; Some Sample.errUnreachable; None]
    [] 3 = None ∧
  reduceWriteQuorumErrs
    [None; Some Sample.errUnreachable; Some Sample.errUnreachable; None;
     Some Sample.errUnreachable]
    [] 3 = Some Sample.errUnreachable.
Proof. repeat split. Qed.

Example SetConfig_three_peers_one_down :
  newEvents Sample.cluster
    (run (SetConfigHandler Sample.env Sample.setConfig) Sample.cluster)
  = [EvMustGetUUID "9f1c2d3e";
     EvWriteTmpConfig (Sample.node 0 "node1:9000") "config-9f1c2d3e.json"
       (Sample.encode "{ version: 13 }") None;
     EvWriteTmpConfig (Sample.node 2 "node2:9000") "config-9f1c2d3e.json"
       (Sample.encode "{ version: 13 }") None;
     EvWriteTmpConfig (Sample.node 3 "node3:9000") "config-9f1c2d3e.json"
       (Sample.encode "{ version: 13 }") (Some Sample.errUnreachable);
     EvNSLock "minio" "config.json";
     EvCommitConfig (Sample.node 0 "node1:9000") "config-9f1c2d3e.json" None;
     EvCommitConfig (Sample.node 2 "node2:9000") "config-9f1c2d3e.json" None;
     EvCommitConfig (Sample.node 3 "node3:9000") "config-9f1c2d3e.json"
       (Some Sample.errUnreachable);
     EvSendServiceCmd Sample.threePeers serviceRestart;
     EvNSUnlock "minio" "config.json"].
Proof. reflexivity. Qed.

(** C2: when the staging quorum check of a set-config request fails, no
    commit is attempted: no peer is asked to promote its staged file and the
    configuration lock is not taken.  The result handed to the encoder has
    status false and one entry per peer; the entry of a peer carries its
    address and has the error flag set exactly when the staging write of
    that peer returned an error.  The response is the encoded result. *)
Theorem SetConfig_staging_quorum_failure
    (env : Env) (σ : World) (r : Request) (objectAPI : ObjectLayer)
    (configBytes : bytes) :
  globalObjectAPI σ = Some objectAPI →
  checkRequestAuthType env (history σ) r = ErrNone →
  Body r = Ok configBytes →
  let σ' := run (SetConfigHandler env r) σ in
  let evs := newEvents σ σ' in
  let peers := globalAdminPeers σ in
  reduceWriteQuorumErrs (stagingErrs evs) [] (len peers `quot` 2 + 1) ≠ None →
  (∀ peer tmpFileName res, EvCommitConfig peer tmpFileName res ∉ evs) ∧
  (∀ volume path, EvNSLock volume path ∉ evs) ∧
  ∃ nodeResults,
    w σ' = w σ ++ [setConfigReply env
                     {| NodeResults := nodeResults; Status := false |}] ∧
    length nodeResults = length peers ∧
    ∀ i peer,
      peers !! i = Some peer →
      ∃ err summary,
        evs !! S i
          = Some (EvWriteTmpConfig peer (tmpFileNameOf env σ) configBytes err) ∧
        nodeResults !! i = Some summary ∧
        Name summary = addr peer ∧
        (ErrSet summary = true ↔ err ≠ None).
Proof.
  intros Hinit Hauth Hbody σ' evs peers Hfail. subst evs σ'.
  rewrite (stagingErrs_newEvents env σ r objectAPI configBytes) in Hfail by done.
  rewrite (SetConfig_events env σ r objectAPI configBytes) by done.
  rewrite (SetConfig_response env σ r objectAPI configBytes) by done.
  rewrite reduceWriteQuorumErrs_nil in Hfail.
  change (len peers `quot` 2 + 1) with (configQuorum σ) in Hfail.
  pose proof (length_stagingErrs env σ configBytes) as Hls.
  pose proof (staged_elem env σ configBytes) as Hse.
  destruct (decide (configQuorum σ ≤ _)) as [Hle | _]; [done |].
  rewrite (bool_decide_eq_false_2 _ Hfail).
  rewrite app_nil_r. simpl.
  split; [| split].
  - intros peer tmpFileName res Hin.
    apply elem_of_cons in Hin as [Heq | Hin]; [by unfold uuidEvent in Heq |].
    by destruct (Hse _ Hin) as (peer' & res' & ?).
  - intros volume path Hin.
    apply elem_of_cons in Hin as [Heq | Hin]; [by unfold uuidEvent in Heq |].
    by destruct (Hse _ Hin) as (peer' & res' & ?).
  - eexists. split; [reflexivity |]. split.
    + rewrite length_zip_with_l_eq; [done | by rewrite Hls].
    + intros i peer Hpeer.
      destruct (lookup_peerEvents
        (λ h p, doWriteTmpConfig env h p (tmpFileNameOf env σ) configBytes)
        (λ p, EvWriteTmpConfig p (tmpFileNameOf env σ) configBytes)
        (history σ ++ [uuidEvent env σ]) peers i peer Hpeer)
        as (err & Hev & Hres).
      exists err, (summaryOf env peer err). split; [done |]. split.
      * rewrite lookup_zip_with. fold peers. rewrite Hpeer. simpl.
        unfold stagingErrs, stagingEvents.
        rewrite omap_peerEvents_Some by done.
        fold peers. by rewrite Hres.
      * split; [done |]. simpl. by rewrite bool_decide_eq_true.
Qed.

Lemma SetConfig_staging_quorum_failure_witness :
  (∀ peer tmpFileName res,
     EvCommitConfig peer tmpFileName res ∉
       newEvents Sample.degradedCluster
         (run (SetConfigHandler Sample.env Sample.setConfig)
              Sample.degradedCluster)) ∧
  (∀ volume path,
     EvNSLock volume path ∉
       newEvents Sample.degradedCluster
         (run (SetConfigHandler Sample.env Sample.setConfig)
              Sample.degradedCluster)) ∧
  ∃ nodeResults,
    w (run (SetConfigHandler Sample.env Sample.setConfig) Sample.degradedCluster)
    = w Sample.degradedCluster
      ++ [setConfigReply Sample.env
            {| NodeResults := nodeResults; Status := false |}] ∧
    length nodeResults = length (globalAdminPeers Sample.degradedCluster) ∧
    ∀ i peer,
      globalAdminPeers Sample.degradedCluster !! i = Some peer →
      ∃ err summary,
        newEvents Sample.degradedCluster
          (run (SetConfigHandler Sample.env Sample.setConfig)
               Sample.degradedCluster) !! S i
          = Some (EvWriteTmpConfig peer
                    (tmpFileNameOf Sample.env Sample.degradedCluster)
                    (Sample.encode "{ version: 13 }") err) ∧
        nodeResults !! i = Some summary ∧
        Name summary = addr peer ∧
        (ErrSet summary = true ↔ err ≠ None).
Proof.
  apply (SetConfig_staging_quorum_failure Sample.env Sample.degradedCluster
           Sample.setConfig 1%nat (Sample.encode "{ version: 13 }"));
    try reflexivity.
  vm_compute. discriminate.
Defined.

Example SetConfig_two_of_five :
  map ErrSet
    (zip_with (summaryOf Sample.env) Sample.fivePeers
       (stagingErrs
          (newEvents Sample.degradedCluster
             (run (SetConfigHandler Sample.env Sample.setConfig)
                  Sample.degradedCluster))))
  = [false; true; true; false; true] ∧
  newEvents Sample.degradedCluster
    (run (SetConfigHandler Sample.env Sample.setConfig) Sample.degradedCluster)
  = uuidEvent Sample.env Sample.degradedCluster
    :: stagingEvents Sample.env Sample.degradedCluster
         (Sample.encode "{ version: 13 }").
Proof. split; reflexivity. Qed.

(** ** Properties of every handler *)

(** The run of the set-config handler, case by case. *)
Lemma SetConfigHandler_cases (env : Env) (σ : World) (r : Request) :
  (globalObjectAPI σ = None ∧
   SetConfigHandler env r σ
     = (Some tt, write (ErrorResponse ErrServerNotInitialized) σ)) ∨
  (globalObjectAPI σ ≠ None ∧
   checkRequestAuthType env (history σ) r ≠ ErrNone ∧
   SetConfigHandler env r σ
     = (Some tt,
        write (ErrorResponse (checkRequestAuthType env (history σ) r)) σ)) ∨
  (∃ err,
     globalObjectAPI σ ≠ None ∧
     checkRequestAuthType env (history σ) r = ErrNone ∧
     Body r = Error err ∧
     SetConfigHandler env r σ
       = (Some tt,
          write (ErrorResponse (toAPIErrorCode env err))
            (log (EvErrorIf err "Failed to read config from request body.") σ))) ∨
  (∃ objectAPI configBytes,
     globalObjectAPI σ = Some objectAPI ∧
     checkRequestAuthType env (history σ) r = ErrNone ∧
     Body r = Ok configBytes).
Proof.
  destruct (globalObjectAPI σ) as [objectAPI |] eqn:Hinit.
  - destruct (decide (checkRequestAuthType env (history σ) r = ErrNone))
      as [Hauth | Hauth].
    + destruct (Body r) as [configBytes | err] eqn:Hbody.
      * do 3 right. by exists objectAPI, configBytes.
      * do 2 right. left. exists err. repeat (split; [done |]).
        unfold SetConfigHandler. unfold_monad.
        by rewrite Hinit, Hauth; simpl; rewrite Hbody.
    + right. left. repeat (split; [done |]).
      unfold SetConfigHandler. unfold_monad. rewrite Hinit. simpl.
      by destruct (decide _).
  - left. split; [done |]. unfold SetConfigHandler. unfold_monad.
    by rewrite Hinit.
Qed.

(** Unfolds the handlers that run without a fan-out. *)
Ltac unfold_handlers :=
  unfold ServiceRestartHandler, ServiceCredentialsHandler, ListLocksHandler,
    ClearLocksHandler, ListObjectsHealHandler, HealBucketHandler,
    HealObjectHandler, HealFormatHandler, validateLockQueryParams,
    validateHealQueryParams, listPeerLocksInfo in *.

(** Runs such a handler on every path. *)
Ltac exec_handler :=
  unfold_handlers; unfold_monad;
  branches; rewrite ?forceUnlockAll_run, ?logUpdateErrs_run in *;
  simplify_eq/=; events.

(** Proves a statement about every handler of a list, one handler at a time. *)
Ltac each_handler :=
  unfold adminHandlers, peerHandlers, engineHandlers; simpl;
  repeat apply Forall_cons_2; try apply Forall_nil_2.

(** X1: every handler returns normally and writes exactly one response,
    whatever the request and the answers of the peers, the engine and the
    disks. *)
Theorem handlers_answer_once (env : Env) :
  Forall (λ handler : Request → M unit,
            ∀ σ r, ∃ resp, (handler r σ).1 = Some tt ∧
                           w (run (handler r) σ) = w σ ++ [resp])
         (adminHandlers env).
Proof.
  each_handler; intros σ r.
  9: { destruct (SetConfigHandler_cases env σ r)
         as [[_ Hrun] | [(_ & _ & Hrun) | [(err & _ & _ & _ & Hrun) |
             (objectAPI & configBytes & Hinit & Hauth & Hbody)]]].
       1-3: unfold run; rewrite Hrun; by eexists.
       eexists. split.
       - by rewrite (SetConfigHandler_run env σ r objectAPI configBytes).
       - by apply (SetConfig_response env σ r objectAPI configBytes). }
  all: exec_handler; by eexists.
Qed.

(** X2: a request that fails the signature check has no effect: no peer, no
    engine and no disk is called, no global is assigned, and the one response
    is an error.  The handlers that do not need the engine answer the code of
    the signature check; so do the others once the engine is initialised
    (they look at the handle first). *)
Theorem unauthenticated_request_has_no_effect (env : Env) :
  Forall (λ handler : Request → M unit,
            ∀ σ r, checkRequestAuthType env (history σ) r ≠ ErrNone →
                   run (handler r) σ
                   = write (ErrorResponse
                              (checkRequestAuthType env (history σ) r)) σ)
         (peerHandlers env) ∧
  Forall (λ handler : Request → M unit,
            ∀ σ r, checkRequestAuthType env (history σ) r ≠ ErrNone →
                   run (handler r) σ
                   = write (ErrorResponse
                              (match globalObjectAPI σ with
                               | None => ErrServerNotInitialized
                               | Some _ =>
                                   checkRequestAuthType env (history σ) r
                               end)) σ)
         (engineHandlers env).
Proof.
  split; each_handler; intros σ r Hauth.
  9: { destruct (SetConfigHandler_cases env σ r)
         as [[Hinit Hrun] | [(Hinit & _ & Hrun) | [(err & _ & ? & _) |
             (objectAPI & configBytes & _ & ? & _)]]]; try done;
         unfold run; rewrite Hrun; simpl;
         by destruct (globalObjectAPI σ). }
  all: by exec_handler.
Qed.

Lemma unauthenticated_request_has_no_effect_witness :
  run (ClearLocksHandler Sample.env Scenarios.unsignedClearLocks) Sample.cluster
  = write (ErrorResponse (ErrCode 4)) Sample.cluster.
Proof.
  apply (Forall_lookup_1 _ _ 3 _
           (proj1 (unauthenticated_request_has_no_effect Sample.env)) eq_refl
           Sample.cluster Scenarios.unsignedClearLocks).
  vm_compute. discriminate.
Defined.

(** X3: on a server whose storage engine is not initialised the handlers
    that need the engine answer the not-initialised error, for every request
    and before the signature is looked at, and call nothing. *)
Theorem engine_handlers_need_initialised_server (env : Env) :
  Forall (λ handler : Request → M unit,
            ∀ σ r, globalObjectAPI σ = None →
                   run (handler r) σ
                   = write (ErrorResponse ErrServerNotInitialized) σ)
         (engineHandlers env).
Proof.
  each_handler; intros σ r Hinit.
  5: { destruct (SetConfigHandler_cases env σ r)
         as [[_ Hrun] | [(? & _) | [(err & ? & _) |
             (objectAPI & configBytes & ? & _)]]]; try congruence.
       unfold run. by rewrite Hrun. }
  all: by exec_handler.
Qed.

Lemma engine_handlers_need_initialised_server_witness :
  run (SetConfigHandler Sample.env Scenarios.unsignedSetConfig)
      Scenarios.startingServer
  = write (ErrorResponse ErrServerNotInitialized) Scenarios.startingServer.
Proof.
  apply (Forall_lookup_1 _ _ 4 _
           (engine_handlers_need_initialised_server Sample.env) eq_refl
           Scenarios.startingServer Scenarios.unsignedSetConfig).
  reflexivity.
Defined.

(** X4: no handler assigns the peer list, the endpoints, the erasure-mode
    flag or the pinned-credentials flag, and the log of calls only grows.
    The engine handle is assigned by the format heal alone, and there only
    by the swap: when it differs after the run, the log has the swap to the
    new handle. *)
Theorem handlers_frame (env : Env) :
  Forall (λ handler : Request → M unit,
            ∀ σ r, sameSettings σ (run (handler r) σ) ∧
                   history (run (handler r) σ)
                   = history σ ++ newEvents σ (run (handler r) σ))
         (adminHandlers env) ∧
  Forall (λ handler : Request → M unit,
            ∀ σ r, globalObjectAPI (run (handler r) σ) = globalObjectAPI σ)
         (handlersKeepingEngine env) ∧
  (∀ σ r,
     globalObjectAPI (run (HealFormatHandler env r) σ) = globalObjectAPI σ ∨
     ∃ newObjectAPI,
       EvSetGlobalObjectAPI newObjectAPI
         ∈ newEvents σ (run (HealFormatHandler env r) σ) ∧
       globalObjectAPI (run (HealFormatHandler env r) σ) = Some newObjectAPI).
Proof.
  split; [| split].
  - each_handler; intros σ r.
    9: { destruct (SetConfigHandler_cases env σ r)
           as [[_ Hrun] | [(_ & _ & Hrun) | [(err & _ & _ & _ & Hrun) |
               (objectAPI & configBytes & Hinit & Hauth & Hbody)]]].
         1-3: unfold run, sameSettings; rewrite Hrun; events;
           by rewrite ?app_nil_r.
         unfold run, sameSettings.
         rewrite (SetConfigHandler_run env σ r objectAPI configBytes) by done.
         repeat destruct (decide _); events; by rewrite ?app_nil_r. }
    all: unfold sameSettings; exec_handler; by rewrite ?app_nil_r.
  - unfold handlersKeepingEngine. each_handler; intros σ r.
    8: { destruct (SetConfigHandler_cases env σ r)
           as [[_ Hrun] | [(_ & _ & Hrun) | [(err & _ & _ & _ & Hrun) |
               (objectAPI & configBytes & Hinit & Hauth & Hbody)]]].
         1-3: unfold run; by rewrite Hrun.
         unfold run.
         rewrite (SetConfigHandler_run env σ r objectAPI configBytes) by done.
         by repeat destruct (decide _). }
    all: by exec_handler.
  - intros σ r. exec_handler; try (by left).
    right. eexists. split; [| done]. do 3 right. left.
Qed.

(** ** More on the configuration commit *)

Lemma staged_not_serialised (env : Env) (σ : World) (configBytes : bytes) :
  Forall (λ e, touchesConfig e = false) (stagingEvents env σ configBytes).
Proof.
  apply Forall_forall. intros e Hin.
  by destruct (staged_elem env σ configBytes e Hin) as (peer & res & ->).
Qed.

Lemma committed_not_lock (env : Env) (σ : World) (configBytes : bytes) :
  Forall (λ e, isLockCall e = false) (commitEvents env σ configBytes).
Proof.
  apply Forall_forall. intros e Hin.
  by destruct (committed_elem env σ configBytes e Hin) as (peer & res & ->).
Qed.

(** X5: in every set-config request the staged files are promoted and the
    restart is sent only while the configuration lock is held, and a lock
    that was taken is released by the last call of the handler, also when
    the commit quorum fails.  A request that does not get to the commit
    phase makes none of these calls. *)
Theorem SetConfig_commits_under_lock (env : Env) (σ : World) (r : Request) :
  Forall (λ e, touchesConfig e = false)
         (newEvents σ (run (SetConfigHandler env r) σ)) ∨
  underConfigLock (newEvents σ (run (SetConfigHandler env r) σ)).
Proof.
  destruct (SetConfigHandler_cases env σ r)
    as [[_ Hrun] | [(_ & _ & Hrun) | [(err & _ & _ & _ & Hrun) |
        (objectAPI & configBytes & Hinit & Hauth & Hbody)]]].
  1-3: left; unfold run; rewrite Hrun; events; by repeat constructor.
  rewrite (SetConfig_events env σ r objectAPI configBytes) by done.
  pose proof (staged_not_serialised env σ configBytes) as Hstaged.
  pose proof (committed_not_lock env σ configBytes) as Hcommitted.
  destruct (decide (configQuorum σ ≤ _)) as [Hle | Hnle].
  - right. exists (uuidEvent env σ :: stagingEvents env σ configBytes).
    exists (commitEvents env σ configBytes ++
            (if decide (configQuorum σ
                        ≤ successes (commitErrs (commitEvents env σ configBytes)))
             then [EvSendServiceCmd (globalAdminPeers σ) serviceRestart]
             else [])).
    split; [| split].
    + simpl. by rewrite <- app_assoc.
    + by constructor.
    + apply Forall_app. split; [done |].
      destruct (decide _); by repeat constructor.
  - left. rewrite app_nil_r. by constructor.
Qed.

Example SetConfig_lock_sample :
  underConfigLock
    (newEvents Sample.cluster
       (run (SetConfigHandler Sample.env Sample.setConfig) Sample.cluster)).
Proof.
  exists (uuidEvent Sample.env Sample.cluster
            :: stagingEvents Sample.env Sample.cluster
                 (Sample.encode "{ version: 13 }")).
  exists (commitEvents Sample.env Sample.cluster
            (Sample.encode "{ version: 13 }")
            ++ [EvSendServiceCmd Sample.threePeers serviceRestart]).
  split; [reflexivity |]. split; repeat constructor.
Qed.

Lemma length_peerEvents {A : Type} (f : list Event → adminPeer → A)
    (ev : adminPeer → A → Event) (h : list Event) (peers : list adminPeer) :
  length (peerEvents f ev h peers) = length peers.
Proof.
  revert h. induction peers as [| peer rest IH]; intros h; simpl; [done |].
  by rewrite IH.
Qed.

(** X6: when the staging quorum of a set-config request is met and the
    commit quorum is not, the restart is not sent and the lock is released
    by the last call.  The result handed to the encoder has status false and
    one entry per peer, whose error flag is set exactly when the promotion
    on that peer returned an error: the response reports the commit phase,
    not the staging phase.  Nothing is undone on the peers that promoted:
    the calls of the request are the draw of the identifier, one staging
    write per peer, the lock, one promotion of the staged file per peer and
    the unlock, in this order, and no other call. *)
Theorem SetConfig_commit_quorum_failure
    (env : Env) (σ : World) (r : Request) (objectAPI : ObjectLayer)
    (configBytes : bytes) :
  globalObjectAPI σ = Some objectAPI →
  checkRequestAuthType env (history σ) r = ErrNone →
  Body r = Ok configBytes →
  let σ' := run (SetConfigHandler env r) σ in
  let evs := newEvents σ σ' in
  let peers := globalAdminPeers σ in
  reduceWriteQuorumErrs (stagingErrs evs) [] (len peers `quot` 2 + 1) = None →
  reduceWriteQuorumErrs (commitErrs evs) [] (len peers `quot` 2 + 1) ≠ None →
  (∀ ps sig, EvSendServiceCmd ps sig ∉ evs) ∧
  last evs = Some unlockEvent ∧
  (∃ staging commits,
     evs = uuidEvent env σ :: staging ++ lockEvent :: commits ++ [unlockEvent] ∧
     length staging = length peers ∧
     length commits = length peers ∧
     (∀ i peer,
        peers !! i = Some peer →
        ∃ res, staging !! i
               = Some (EvWriteTmpConfig peer (tmpFileNameOf env σ)
                         configBytes res)) ∧
     (∀ i peer,
        peers !! i = Some peer →
        ∃ err, commits !! i
               = Some (EvCommitConfig peer (tmpFileNameOf env σ) err))) ∧
  ∃ nodeResults,
    w σ' = w σ ++ [setConfigReply env
                     {| NodeResults := nodeResults; Status := false |}] ∧
    length nodeResults = length peers ∧
    ∀ i peer,
      peers !! i = Some peer →
      ∃ err summary,
        evs !! (length peers + 2 + i)%nat
          = Some (EvCommitConfig peer (tmpFileNameOf env σ) err) ∧
        nodeResults !! i = Some summary ∧
        Name summary = addr peer ∧
        (ErrSet summary = true ↔ err ≠ None).
Proof.
  intros Hinit Hauth Hbody σ' evs peers Hstaged Hfail. subst evs σ'.
  rewrite (stagingErrs_newEvents env σ r objectAPI configBytes) in Hstaged
    by done.
  rewrite (commitErrs_newEvents env σ r objectAPI configBytes) in Hfail by done.
  rewrite (SetConfig_events env σ r objectAPI configBytes) by done.
  rewrite (SetConfig_response env σ r objectAPI configBytes) by done.
  rewrite reduceWriteQuorumErrs_nil in Hstaged, Hfail.
  change (len peers `quot` 2 + 1) with (configQuorum σ) in Hstaged, Hfail.
  pose proof (length_commitErrs env σ configBytes) as Hlc.
  pose proof (staged_elem env σ configBytes) as Hse.
  pose proof (committed_elem env σ configBytes) as Hce.
  destruct (decide (configQuorum σ ≤ _)) as [_ | ?]; [| done].
  destruct (decide (configQuorum σ ≤ _)) as [? | _]; [done |].
  rewrite (bool_decide_eq_false_2 _ Hfail), andb_false_r. simpl.
  split; [| split; [| split]].
  - intros ps sig Hin.
    apply elem_of_cons in Hin as [Heq | Hin]; [by unfold uuidEvent in Heq |].
    apply elem_of_app in Hin as [Hin | Hin];
      [by destruct (Hse _ Hin) as (peer & res & ?) |].
    apply elem_of_cons in Hin as [Heq | Hin]; [done |].
    apply elem_of_app in Hin as [Hin | Hin];
      [by destruct (Hce _ Hin) as (peer & res & ?) |].
    members.
  - replace (uuidEvent env σ :: stagingEvents env σ configBytes ++
               lockEvent :: commitEvents env σ configBytes ++ [unlockEvent])
      with ((uuidEvent env σ :: stagingEvents env σ configBytes ++
               lockEvent :: commitEvents env σ configBytes) ++ [unlockEvent])
      by (simpl; by rewrite <- app_assoc).
    apply last_snoc.
  - exists (stagingEvents env σ configBytes), (commitEvents env σ configBytes).
    split; [reflexivity |]. unfold stagingEvents, commitEvents.
    rewrite !length_peerEvents. fold peers.
    split; [done |]. split; [done |]. split; intros i peer Hpeer.
    + destruct (lookup_peerEvents
        (λ h p, doWriteTmpConfig env h p (tmpFileNameOf env σ) configBytes)
        (λ p, EvWriteTmpConfig p (tmpFileNameOf env σ) configBytes)
        (history σ ++ [uuidEvent env σ]) peers i peer Hpeer)
        as (res & Hev & _).
      by exists res.
    + destruct (lookup_peerEvents
        (λ h p, doCommitConfig env h p (tmpFileNameOf env σ))
        (λ p, EvCommitConfig p (tmpFileNameOf env σ))
        (history σ ++ uuidEvent env σ ::
           peerEvents
             (λ h p, doWriteTmpConfig env h p (tmpFileNameOf env σ)
                       configBytes)
             (λ p, EvWriteTmpConfig p (tmpFileNameOf env σ) configBytes)
             (history σ ++ [uuidEvent env σ]) peers ++ [lockEvent])
        peers i peer Hpeer) as (err & Hev & _).
      by exists err.
  - eexists. split; [reflexivity |]. split.
    + rewrite length_zip_with_l_eq; [done | by rewrite Hlc].
    + intros i peer Hpeer.
      destruct (lookup_peerEvents
        (λ h p, doCommitConfig env h p (tmpFileNameOf env σ))
        (λ p, EvCommitConfig p (tmpFileNameOf env σ))
        (history σ ++ uuidEvent env σ :: stagingEvents env σ configBytes
           ++ [lockEvent])
        peers i peer Hpeer) as (err & Hev & Hres).
      exists err, (summaryOf env peer err). split; [| split].
      * replace (length peers + 2 + i)%nat
          with (S (length (stagingEvents env σ configBytes) + S i))
          by (unfold stagingEvents; rewrite length_peerEvents;
              fold peers; lia).
        simpl. rewrite lookup_app_r by lia.
        replace (length (stagingEvents env σ configBytes) + S i
                 - length (stagingEvents env σ configBytes))%nat
          with (S i) by lia.
        simpl. rewrite lookup_app_l; [done |].
        by eapply lookup_lt_Some.
      * rewrite lookup_zip_with. fold peers. rewrite Hpeer. simpl.
        unfold commitErrs, commitEvents.
        rewrite omap_peerEvents_Some by done.
        fold peers. by rewrite Hres.
      * split; [done |]. simpl. by rewrite bool_decide_eq_true.
Qed.

Lemma SetConfig_commit_quorum_failure_witness :
  (∀ ps sig,
     EvSendServiceCmd ps sig ∉
       newEvents Sample.cluster
         (run (SetConfigHandler Scenarios.commitDownEnv Sample.setConfig)
              Sample.cluster)) ∧
  last (newEvents Sample.cluster
          (run (SetConfigHandler Scenarios.commitDownEnv Sample.setConfig)
               Sample.cluster)) = Some unlockEvent ∧
  (∃ staging commits,
     newEvents Sample.cluster
       (run (SetConfigHandler Scenarios.commitDownEnv Sample.setConfig)
            Sample.cluster)
     = uuidEvent Scenarios.commitDownEnv Sample.cluster
       :: staging ++ lockEvent :: commits ++ [unlockEvent] ∧
     length staging = length (globalAdminPeers Sample.cluster) ∧
     length commits = length (globalAdminPeers Sample.cluster) ∧
     (∀ i peer,
        globalAdminPeers Sample.cluster !! i = Some peer →
        ∃ res, staging !! i
               = Some (EvWriteTmpConfig peer
                         (tmpFileNameOf Scenarios.commitDownEnv Sample.cluster)
                         (Sample.encode "{ version: 13 }") res)) ∧
     (∀ i peer,
        globalAdminPeers Sample.cluster !! i = Some peer →
        ∃ err, commits !! i
               = Some (EvCommitConfig peer
                         (tmpFileNameOf Scenarios.commitDownEnv Sample.cluster)
                         err))) ∧
  ∃ nodeResults,
    w (run (SetConfigHandler Scenarios.commitDownEnv Sample.setConfig)
           Sample.cluster)
    = w Sample.cluster
      ++ [setConfigReply Scenarios.commitDownEnv
            {| NodeResults := nodeResults; Status := false |}] ∧
    length nodeResults = length (globalAdminPeers Sample.cluster) ∧
    ∀ i peer,
      globalAdminPeers Sample.cluster !! i = Some peer →
      ∃ err summary,
        newEvents Sample.cluster
          (run (SetConfigHandler Scenarios.commitDownEnv Sample.setConfig)
               Sample.cluster)
          !! (length (globalAdminPeers Sample.cluster) + 2 + i)%nat
          = Some (EvCommitConfig peer
                    (tmpFileNameOf Scenarios.commitDownEnv Sample.cluster) err) ∧
        nodeResults !! i = Some summary ∧
        Name summary = addr peer ∧
        (ErrSet summary = true ↔ err ≠ None).
Proof.
  apply (SetConfig_commit_quorum_failure Scenarios.commitDownEnv Sample.cluster
           Sample.setConfig 1%nat (Sample.encode "{ version: 13 }"));
    try reflexivity.
  vm_compute. discriminate.
Defined.

(** X7: the response of a set-config request is built slot by slot against
    the peer list.  With more error slots than peers the handler panics
    (index out of range) and writes nothing; otherwise it returns normally,
    the result has one entry per error slot, named after the peer at the
    same index, and the peers beyond the slots are left out.  An error-free
    slot is reported with the flag unset and the message "<nil>". *)
Theorem writeSetConfigResponse_bounds
    (env : Env) (peers : list adminPeer) (errs : list error) (status : bool)
    (σ : World) :
  ((length peers < length errs)%nat →
   writeSetConfigResponse env peers errs status σ = (None, σ)) ∧
  ((length errs ≤ length peers)%nat →
   writeSetConfigResponse env peers errs status σ
   = (Some tt,
      write (setConfigReply env
               {| NodeResults := zip_with (summaryOf env) peers errs;
                  Status := status |}) σ) ∧
   length (zip_with (summaryOf env) peers errs) = length errs ∧
   ∀ i peer err,
     peers !! i = Some peer → errs !! i = Some err →
     zip_with (summaryOf env) peers errs !! i
     = Some {| Name := addr peer;
               ErrSet := match err with None => false | Some _ => true end;
               ErrMsg := match err with
                         | None => "<nil>"
                         | Some e => Error_msg env e
                         end |}).
Proof.
  split.
  - intros Hlen. unfold writeSetConfigResponse.
    by rewrite buildNodeResults_out_of_range.
  - intros Hlen. split; [| split].
    + unfold writeSetConfigResponse, setConfigReply.
      rewrite buildNodeResults_in_range by (simpl; lia). simpl.
      by destruct (json_Encode env _).
    + by apply length_zip_with_r.
    + intros i peer err Hpeer Herr. rewrite lookup_zip_with, Hpeer. simpl.
      rewrite Herr. simpl. unfold summaryOf. by destruct err.
Qed.

Lemma writeSetConfigResponse_bounds_witness :
  writeSetConfigResponse Sample.env Sample.threePeers
    [None; None; Some Sample.errUnreachable; None] false Sample.cluster
  = (None, Sample.cluster).
Proof.
  apply (writeSetConfigResponse_bounds Sample.env Sample.threePeers
           [None; None; Some Sample.errUnreachable; None] false Sample.cluster).
  unfold Sample.threePeers. simpl. lia.
Defined.

Lemma append_length (s1 s2 : string) :
  String.length (s1 +:+ s2) = (String.length s1 + String.length s2)%nat.
Proof. induction s1 as [| c s1 IH]; simpl; [done |]. by rewrite IH. Qed.

Lemma append_inj_l (s1 s2 s : string) : s1 +:+ s = s2 +:+ s → s1 = s2.
Proof.
  revert s2. induction s1 as [| c s1 IH]; intros [| c' s2] Heq; simpl in *.
  - done.
  - apply (f_equal String.length) in Heq.
    rewrite !append_length in Heq. simpl in Heq. lia.
  - apply (f_equal String.length) in Heq.
    rewrite !append_length in Heq. simpl in Heq. lia.
  - simplify_eq. f_equal. by apply IH.
Qed.

(** X8: the name of the temporary configuration file is never the name of
    the live configuration file, whatever the identifier drawn, and two
    identifiers give the same name only when they are equal: a staging write
    cannot overwrite config.json, nor the staged file of another attempt
    with a different identifier. *)
Theorem minioConfigTmpFormat_fresh (uuid uuid' : string) :
  minioConfigTmpFormat uuid ≠ globalMinioConfigFile ∧
  (minioConfigTmpFormat uuid = minioConfigTmpFormat uuid' → uuid = uuid').
Proof.
  unfold minioConfigTmpFormat, globalMinioConfigFile. split.
  - intros Heq. cbv in Heq. congruence.
  - intros Heq. apply (inj (String.app "config-")) in Heq.
    by apply append_inj_l in Heq.
Qed.

Lemma peerEvents_elem_peer {A : Type} (f : list Event → adminPeer → A)
    (ev : adminPeer → A → Event) (h : list Event) (peers : list adminPeer)
    (e : Event) :
  e ∈ peerEvents f ev h peers → ∃ peer a, peer ∈ peers ∧ e = ev peer a.
Proof.
  revert h. induction peers as [| peer rest IH]; intros h; simpl; intros Hin.
  - by apply elem_of_nil in Hin.
  - apply elem_of_cons in Hin as [-> | Hin].
    + do 2 eexists. split; [left | done].
    + destruct (IH _ Hin) as (peer' & a & Hpeer & ->).
      do 2 eexists. split; [by right | done].
Qed.

Lemma peerEvents_covers {A : Type} (f : list Event → adminPeer → A)
    (ev : adminPeer → A → Event) (h : list Event) (peers : list adminPeer)
    (peer : adminPeer) :
  peer ∈ peers → ∃ a, ev peer a ∈ peerEvents f ev h peers.
Proof.
  intros Hin. apply list_elem_of_lookup in Hin as [i Hi].
  destruct (lookup_peerEvents f ev h peers i peer Hi) as (a & Hev & _).
  exists a. apply list_elem_of_lookup. by exists i.
Qed.

(** X9: in every set-config request a promotion is asked only of a peer of
    the cluster, for the file name built from the identifier drawn at the
    start of the request, and the same request wrote that file name to that
    peer in its staging phase.  Once the lock is taken, every peer is asked
    to promote, also a peer whose staging write failed. *)
Theorem SetConfig_commit_follows_staging (env : Env) (σ : World) (r : Request) :
  let evs := newEvents σ (run (SetConfigHandler env r) σ) in
  (∀ peer tmpFileName res,
     EvCommitConfig peer tmpFileName res ∈ evs →
     peer ∈ globalAdminPeers σ ∧
     head evs = Some (EvMustGetUUID (mustGetUUID env (history σ))) ∧
     tmpFileName = minioConfigTmpFormat (mustGetUUID env (history σ)) ∧
     ∃ configBytes res',
       Body r = Ok configBytes ∧
       EvWriteTmpConfig peer tmpFileName configBytes res' ∈ evs) ∧
  (lockEvent ∈ evs →
   ∀ peer, peer ∈ globalAdminPeers σ →
           ∃ res, EvCommitConfig peer
                    (minioConfigTmpFormat (mustGetUUID env (history σ))) res
                  ∈ evs).
Proof.
  intros evs. subst evs.
  destruct (SetConfigHandler_cases env σ r)
    as [[_ Hrun] | [(_ & _ & Hrun) | [(err & _ & _ & _ & Hrun) |
        (objectAPI & configBytes & Hinit & Hauth & Hbody)]]].
  1-3: unfold run; rewrite Hrun; events;
    (split; [intros peer tmpFileName res Hin | intros Hin]); by members.
  rewrite (SetConfig_events env σ r objectAPI configBytes) by done.
  pose proof (staged_elem env σ configBytes) as Hse.
  unfold uuidEvent, lockEvent, unlockEvent, tmpFileNameOf in *.
  destruct (decide (configQuorum σ ≤ _)) as [Hle | Hnle].
  - split.
    + intros peer tmpFileName res Hin.
      apply elem_of_cons in Hin as [Heq | Hin]; [done |].
      apply elem_of_app in Hin as [Hin | Hin];
        [by destruct (Hse _ Hin) as (peer' & res' & ?) |].
      apply elem_of_cons in Hin as [Heq | Hin]; [done |].
      apply elem_of_app in Hin as [Hin | Hin].
      * apply peerEvents_elem_peer in Hin as (peer' & res' & Hpeer & Heq).
        simplify_eq. split; [done |]. split; [done |]. split; [done |].
        destruct (peerEvents_covers
          (λ h p, doWriteTmpConfig env h p
                    (minioConfigTmpFormat (mustGetUUID env (history σ)))
                    configBytes)
          (λ p, EvWriteTmpConfig p
                  (minioConfigTmpFormat (mustGetUUID env (history σ)))
                  configBytes)
          (history σ ++ [EvMustGetUUID (mustGetUUID env (history σ))])
          (globalAdminPeers σ) peer' Hpeer) as (res'' & Hstaged).
        exists configBytes, res''. split; [done |].
        right. apply elem_of_app. by left.
      * apply elem_of_app in Hin as [Hin | Hin];
          [destruct (decide _) |]; by members.
    + intros _ peer Hpeer.
      destruct (peerEvents_covers
        (λ h p, doCommitConfig env h p
                  (minioConfigTmpFormat (mustGetUUID env (history σ))))
        (λ p, EvCommitConfig p
                (minioConfigTmpFormat (mustGetUUID env (history σ))))
        (history σ ++ EvMustGetUUID (mustGetUUID env (history σ))
           :: stagingEvents env σ configBytes
           ++ [EvNSLock minioReservedBucket globalMinioConfigFile])
        (globalAdminPeers σ) peer Hpeer) as (res & Hcommitted).
      exists res. right. apply elem_of_app. right. right.
      apply elem_of_app. by left.
  - rewrite app_nil_r. split.
    + intros peer tmpFileName res Hin.
      apply elem_of_cons in Hin as [Heq | Hin]; [done |].
      by destruct (Hse _ Hin) as (peer' & res' & ?).
    + intros Hin.
      apply elem_of_cons in Hin as [Heq | Hin]; [done |].
      by destruct (Hse _ Hin) as (peer' & res' & ?).
Qed.

Lemma SetConfig_commit_follows_staging_witness :
  ∃ res,
    EvCommitConfig (Sample.node 3 "node3:9000")
      (minioConfigTmpFormat (mustGetUUID Sample.env (history Sample.cluster)))
      res
    ∈ newEvents Sample.cluster
        (run (SetConfigHandler Sample.env Sample.setConfig) Sample.cluster).
Proof.
  apply (proj2 (SetConfig_commit_follows_staging Sample.env Sample.cluster
                  Sample.setConfig)).
  - vm_compute. do 4 right. left.
  - vm_compute. do 2 right. left.
Defined.

(** ** More on the validation of the query parameters *)

(** X10: the validation of the lock query parameters returns normally.  When
    it accepts, it changes nothing and returns the bucket and the prefix of
    the query, both valid, and the parsed duration (that of "0s" for a
    missing or empty duration).  When it refuses, the three values are
    zeroed and the code is that of the first failing test, in the order
    bucket, prefix, duration: an invalid bucket masks an invalid prefix and
    a bad duration. *)
Theorem validateLockQueryParams_sound (env : Env) (vars : Values) (σ : World) :
  ∃ bucket prefix duration code σ',
    validateLockQueryParams env vars σ
      = (Some (bucket, prefix, duration, code), σ') ∧
    (code = ErrNone →
     σ' = σ ∧
     bucket = Get vars mgmtBucket ∧ IsValidBucketName env bucket = true ∧
     prefix = Get vars mgmtPrefix ∧ IsValidObjectPrefix env prefix = true ∧
     ParseDuration env (if decide (Get vars mgmtLockDuration = "") then "0s"
                        else Get vars mgmtLockDuration) = Ok duration) ∧
    (code ≠ ErrNone →
     bucket = "" ∧ prefix = "" ∧ duration = 0 ∧
     code = (if negb (IsValidBucketName env (Get vars mgmtBucket))
             then ErrInvalidBucketName
             else if negb (IsValidObjectPrefix env (Get vars mgmtPrefix))
             then ErrInvalidObjectName
             else ErrInvalidDuration)).
Proof.
  unfold validateLockQueryParams. unfold_monad.
  destruct (IsValidBucketName env _) eqn:Hbucket; simpl;
    [destruct (IsValidObjectPrefix env _) eqn:Hprefix; simpl;
     [destruct (ParseDuration env _) eqn:Hduration; simpl |] |];
    do 5 eexists; (split; [reflexivity |]); split; intros Hcode;
    simplify_eq/=; done.
Qed.

(** X11: the validation of the heal-listing parameters.  When it accepts,
    the five values are those of the query, the bucket and the prefix are
    valid, the max-key is the integer read from the query and the listing
    arguments passed their own validator.  When it refuses, all five values
    are zeroed, and the code is that of the first failing test, in the order
    bucket, prefix, integer parse, listing arguments. *)
Theorem validateHealQueryParams_sound (env : Env) (vars : Values) :
  ∃ bucket prefix marker delimiter maxKey code,
    validateHealQueryParams env vars
      = (bucket, prefix, marker, delimiter, maxKey, code) ∧
    (code = ErrNone →
     bucket = Get vars mgmtBucket ∧ IsValidBucketName env bucket = true ∧
     prefix = Get vars mgmtPrefix ∧ IsValidObjectPrefix env prefix = true ∧
     marker = Get vars mgmtMarker ∧ delimiter = Get vars mgmtDelimiter ∧
     Atoi env (Get vars mgmtMaxKey) = Ok maxKey ∧
     validateListObjectsArgs env prefix marker delimiter maxKey = ErrNone) ∧
    (code ≠ ErrNone →
     bucket = "" ∧ prefix = "" ∧ marker = "" ∧ delimiter = "" ∧ maxKey = 0 ∧
     code = (if negb (IsValidBucketName env (Get vars mgmtBucket))
             then ErrInvalidBucketName
             else if negb (IsValidObjectPrefix env (Get vars mgmtPrefix))
             then ErrInvalidObjectName
             else match Atoi env (Get vars mgmtMaxKey) with
                  | Error _ => ErrInvalidMaxKeys
                  | Ok k => validateListObjectsArgs env (Get vars mgmtPrefix)
                              (Get vars mgmtMarker) (Get vars mgmtDelimiter) k
                  end)).
Proof.
  unfold validateHealQueryParams.
  destruct (IsValidBucketName env _) eqn:Hbucket; simpl;
    [destruct (IsValidObjectPrefix env _) eqn:Hprefix; simpl;
     [destruct (Atoi env _) as [k | err] eqn:Hatoi; simpl;
      [destruct (decide (validateListObjectsArgs env _ _ _ k ≠ ErrNone))
         as [Hargs | Hargs] |] |] |];
    do 6 eexists; (split; [reflexivity |]); split; intros Hcode;
    simplify_eq/=; try done.
  apply dec_stable in Hargs. by rewrite Hargs.
Qed.

(** X12: max-key is not optional.  With an integer parser that refuses the
    empty string, a list-objects-heal request without the max-key parameter
    that passes the earlier checks is answered the invalid-max-keys error
    and the storage engine is not asked for a listing. *)
Theorem ListObjectsHeal_max_key_required
    (env : Env) (σ : World) (r : Request) (objLayer : ObjectLayer) (err : Err) :
  Atoi env "" = Error err →
  URL_Query r !! mgmtMaxKey = None →
  globalObjectAPI σ = Some objLayer →
  checkRequestAuthType env (history σ) r = ErrNone →
  IsValidBucketName env (Get (URL_Query r) mgmtBucket) = true →
  IsValidObjectPrefix env (Get (URL_Query r) mgmtPrefix) = true →
  ListObjectsHealHandler env r σ
    = (Some tt, write (ErrorResponse ErrInvalidMaxKeys) σ).
Proof.
  intros Hatoi Hkey Hinit Hauth Hbucket Hprefix.
  eapply ListObjectsHeal_unparsed_max_key; try done.
  unfold Get. rewrite Hkey. exact Hatoi.
Qed.

Lemma ListObjectsHeal_max_key_required_witness :
  ListObjectsHealHandler Sample.env
    (Sample.request [("bucket", ["photos"]); ("prefix", ["2017/"])] "")
    Sample.cluster
  = (Some tt, write (ErrorResponse ErrInvalidMaxKeys) Sample.cluster).
Proof.
  apply (ListObjectsHeal_max_key_required Sample.env Sample.cluster
           (Sample.request [("bucket", ["photos"]); ("prefix", ["2017/"])] "")
           1%nat (errorString "invalid syntax"));
    reflexivity.
Defined.

(** Splits a membership in a log that may end in force-release calls. *)
Ltac log_members :=
  repeat match goal with
  | H : _ ∈ [] |- _ => by apply elem_of_nil in H
  | H : _ ∈ _ :: _ |- _ => apply elem_of_cons in H as [H | H]
  | H : _ ∈ _ ++ _ |- _ => apply elem_of_app in H as [H | H]
  | H : _ ∈ releases _ |- _ =>
      apply list_elem_of_fmap in H as (? & ? & ?)
  end;
  repeat match goal with
  | H : @eq Event _ _ |- _ => inversion H; subst; clear H
  end.

(** Turns the tests a run passed into equations. *)
Ltac passed_tests :=
  repeat match goal with
  | H : decide _ = _ |- _ => clear H
  end;
  repeat match goal with
  | H : negb _ = false |- _ => apply negb_false_iff in H
  | H : ¬ _ ≠ _ |- _ => apply dec_stable in H
  end.

(** X13: the peers and the engine are asked only what was validated.  A
    lock listing is requested, by list-locks and by clear-locks, only for an
    authenticated request, from the peers of the cluster, with the bucket
    and the prefix of the query, both valid, and the parsed duration.  An
    object listing is requested from the current engine only with validated
    arguments.  A lock released by clear-locks is one of the records the
    listing of the same request returned. *)
Theorem outside_calls_use_validated_arguments
    (env : Env) (σ : World) (r : Request) :
  (∀ handler, handler = ListLocksHandler env ∨ handler = ClearLocksHandler env →
     ∀ peers bucket prefix duration res,
       EvListPeerLocksInfo peers bucket prefix duration res
         ∈ newEvents σ (run (handler r) σ) →
       checkRequestAuthType env (history σ) r = ErrNone ∧
       peers = globalAdminPeers σ ∧
       bucket = Get (URL_Query r) mgmtBucket ∧
       IsValidBucketName env bucket = true ∧
       prefix = Get (URL_Query r) mgmtPrefix ∧
       IsValidObjectPrefix env prefix = true ∧
       ParseDuration env
         (if decide (Get (URL_Query r) mgmtLockDuration = "") then "0s"
          else Get (URL_Query r) mgmtLockDuration) = Ok duration) ∧
  (∀ objLayer bucket prefix marker delimiter maxKey res,
     EvListObjectsHeal objLayer bucket prefix marker delimiter maxKey res
       ∈ newEvents σ (run (ListObjectsHealHandler env r) σ) →
     checkRequestAuthType env (history σ) r = ErrNone ∧
     globalObjectAPI σ = Some objLayer ∧
     IsValidBucketName env bucket = true ∧
     IsValidObjectPrefix env prefix = true ∧
     Atoi env (Get (URL_Query r) mgmtMaxKey) = Ok maxKey ∧
     validateListObjectsArgs env prefix marker delimiter maxKey = ErrNone) ∧
  (∀ bucket object,
     EvForceUnlock bucket object
       ∈ newEvents σ (run (ClearLocksHandler env r) σ) →
     ∃ peers b p d volLocks volLock,
       EvListPeerLocksInfo peers b p d (Ok volLocks)
         ∈ newEvents σ (run (ClearLocksHandler env r) σ) ∧
       volLock ∈ volLocks ∧
       bucket = Bucket volLock ∧ object = Object volLock).
Proof.
  split; [| split].
  - intros handler [-> | ->] peers bucket prefix duration res;
      exec_handler; intros Hin; log_members; passed_tests;
      repeat (split; [done |]); done.
  - intros objLayer bucket prefix marker delimiter maxKey res.
    exec_handler; intros Hin; log_members; passed_tests; done.
  - intros bucket object. exec_handler; intros Hin; log_members.
    all: do 6 eexists; (split; [left |]); done.
Qed.

Lemma outside_calls_use_validated_arguments_witness :
  ∃ peers b p d volLocks volLock,
    EvListPeerLocksInfo peers b p d (Ok volLocks)
      ∈ newEvents Sample.cluster
          (run (ClearLocksHandler Sample.env
                  (Sample.request [("bucket", ["photos"])] ""))
               Sample.cluster) ∧
    volLock ∈ volLocks ∧
    "photos" = Bucket volLock ∧ "2017/b.jpg" = Object volLock.
Proof.
  apply (proj2 (proj2 (outside_calls_use_validated_arguments Sample.env
                         Sample.cluster
                         (Sample.request [("bucket", ["photos"])] "")))).
  vm_compute. do 2 right. left.
Defined.

(** ** More on credentials and heal *)

(** X14: new credentials are stored on this server only for an
    authenticated request, on a server whose credentials are not pinned by
    the environment, when the body parsed and the keys are valid; the stored
    pair is the one of the body, and the peers were sent the same pair
    first.  With pinned credentials an authenticated request is answered
    method-not-allowed and nothing is called. *)
Theorem ServiceCredentials_guards (env : Env) (σ : World) (r : Request) :
  (∀ creds,
     EvSetCredential creds
       ∈ newEvents σ (run (ServiceCredentialsHandler env r) σ) →
     checkRequestAuthType env (history σ) r = ErrNone ∧
     globalIsEnvCreds σ = false ∧
     ∃ inputData req updateErrs,
       Body r = Ok inputData ∧ xml_Unmarshal env inputData = Ok req ∧
       validateAuthKeys env (Username req) (Password req) = None ∧
       creds = {| AccessKey := Username req; SecretKey := Password req |} ∧
       head (newEvents σ (run (ServiceCredentialsHandler env r) σ))
         = Some (EvUpdateCredsOnPeers creds updateErrs)) ∧
  (checkRequestAuthType env (history σ) r = ErrNone →
   globalIsEnvCreds σ = true →
   run (ServiceCredentialsHandler env r) σ
     = write (ErrorResponse ErrMethodNotAllowed) σ).
Proof.
  split.
  - intros creds. exec_handler; intros Hin; try by log_members.
    all: apply elem_of_cons in Hin as [Heq | Hin]; [done |].
    all: apply elem_of_app in Hin as [Hin | Hin];
      [apply list_elem_of_omap in Hin as ([peer [err |]] & _ & Heq);
       simplify_eq/= |].
    all: log_members; passed_tests; repeat (split; [done |]).
    all: by do 3 eexists.
  - intros Hauth Henv. unfold ServiceCredentialsHandler. unfold_monad.
    rewrite Hauth; simpl. by rewrite Henv.
Qed.

Lemma ServiceCredentials_guards_witness :
  checkRequestAuthType Sample.env (history Sample.cluster) Sample.setCreds
    = ErrNone ∧
  globalIsEnvCreds Sample.cluster = false ∧
  ∃ inputData req updateErrs,
    Body Sample.setCreds = Ok inputData ∧
    xml_Unmarshal Sample.env inputData = Ok req ∧
    validateAuthKeys Sample.env (Username req) (Password req) = None ∧
    {| AccessKey := "admin-user"; SecretKey := "s3cr3t-k3y-0f-th3-d4y" |}
      = {| AccessKey := Username req; SecretKey := Password req |} ∧
    head (newEvents Sample.cluster
            (run (ServiceCredentialsHandler Sample.env Sample.setCreds)
                 Sample.cluster))
      = Some (EvUpdateCredsOnPeers
                {| AccessKey := "admin-user";
                   SecretKey := "s3cr3t-k3y-0f-th3-d4y" |} updateErrs).
Proof.
  apply (proj1 (ServiceCredentials_guards Sample.env Sample.cluster
                  Sample.setCreds)).
  vm_compute. do 3 right. left.
Defined.

(** X15: in every bucket-heal request the existence check comes before the
    heal.  When the check fails the response is that error and the engine is
    not asked to heal; a heal call directly follows a successful check of
    the same bucket on the same engine. *)
Theorem HealBucket_check_before_heal (env : Env) (σ : World) (r : Request) :
  (∀ bucket objLayer err,
     EvCheckBucketExist bucket objLayer (Some err)
       ∈ newEvents σ (run (HealBucketHandler env r) σ) →
     run (HealBucketHandler env r) σ
       = write (ErrorResponse (toAPIErrorCode env err))
           (log (EvCheckBucketExist bucket objLayer (Some err)) σ)) ∧
  (∀ objLayer bucket res,
     EvHealBucket objLayer bucket res
       ∈ newEvents σ (run (HealBucketHandler env r) σ) →
     isDryRun (URL_Query r) = false ∧
     newEvents σ (run (HealBucketHandler env r) σ)
       = [EvCheckBucketExist bucket objLayer None;
          EvHealBucket objLayer bucket res]).
Proof.
  split.
  - intros bucket objLayer err. exec_handler; intros Hin; by log_members.
  - intros objLayer bucket res. exec_handler; intros Hin; by log_members.
Qed.

Lemma HealBucket_check_before_heal_witness :
  run (HealBucketHandler Sample.env
         (Sample.request [("bucket", ["videos"])] "")) Sample.cluster
  = write (ErrorResponse (toAPIErrorCode Sample.env Sample.errBucketNotFound))
      (log (EvCheckBucketExist "videos" 1%nat (Some Sample.errBucketNotFound))
           Sample.cluster).
Proof.
  apply (proj1 (HealBucket_check_before_heal Sample.env Sample.cluster
                  (Sample.request [("bucket", ["videos"])] ""))).
  vm_compute. left.
Defined.

(** X16: on a backend that is not erasure-coded an authenticated format-heal
    request on an initialised server is answered not-implemented, with or
    without the dry-run key, and no disk is touched. *)
Theorem HealFormat_needs_erasure_backend
    (env : Env) (σ : World) (r : Request) (objectAPI : ObjectLayer) :
  globalObjectAPI σ = Some objectAPI →
  checkRequestAuthType env (history σ) r = ErrNone →
  globalIsXL σ = false →
  run (HealFormatHandler env r) σ = write (ErrorResponse ErrNotImplemented) σ.
Proof.
  intros Hinit Hauth HXL. unfold HealFormatHandler. unfold_monad.
  rewrite Hinit, Hauth; simpl. by rewrite HXL.
Qed.

(** X17: a format heal that swaps the engine handle went through all its
    steps in order: the storage handles were reinitialised from the
    endpoints, the format heal and the construction of the new engine on
    those handles succeeded, then the handle was swapped, the previous
    engine shut down and the peers told to reinitialise their disks.  The
    response is success and the handle of the server is the new engine. *)
Theorem HealFormat_swap_is_complete
    (env : Env) (σ : World) (r : Request) (newObjectAPI : ObjectLayer) :
  EvSetGlobalObjectAPI newObjectAPI
    ∈ newEvents σ (run (HealFormatHandler env r) σ) →
  ∃ oldObjectAPI bootstrapDisks,
    globalObjectAPI σ = Some oldObjectAPI ∧
    globalIsXL σ = true ∧
    isDryRun (URL_Query r) = false ∧
    newEvents σ (run (HealFormatHandler env r) σ)
      = [EvInitStorageDisks (globalEndpoints σ) (Ok bootstrapDisks);
         EvHealFormatXL bootstrapDisks None;
         EvNewXLObjects bootstrapDisks (Ok newObjectAPI);
         EvSetGlobalObjectAPI newObjectAPI;
         EvShutdown oldObjectAPI;
         EvReInitPeerDisks (globalAdminPeers σ)] ∧
    globalObjectAPI (run (HealFormatHandler env r) σ) = Some newObjectAPI ∧
    w (run (HealFormatHandler env r) σ) = w σ ++ [SuccessResponseHeadersOnly].
Proof.
  exec_handler; intros Hin; log_members.
  passed_tests. do 2 eexists. repeat (split; [done |]). done.
Qed.

Lemma HealFormat_swap_is_complete_witness :
  ∃ oldObjectAPI bootstrapDisks,
    globalObjectAPI Sample.cluster = Some oldObjectAPI ∧
    globalIsXL Sample.cluster = true ∧
    isDryRun (URL_Query Sample.healFormat) = false ∧
    newEvents Sample.cluster
      (run (HealFormatHandler Sample.env Sample.healFormat) Sample.cluster)
      = [EvInitStorageDisks (globalEndpoints Sample.cluster) (Ok bootstrapDisks);
         EvHealFormatXL bootstrapDisks None;
         EvNewXLObjects bootstrapDisks (Ok 8%nat);
         EvSetGlobalObjectAPI 8%nat;
         EvShutdown oldObjectAPI;
         EvReInitPeerDisks (globalAdminPeers Sample.cluster)] ∧
    globalObjectAPI
      (run (HealFormatHandler Sample.env Sample.healFormat) Sample.cluster)
      = Some 8%nat ∧
    w (run (HealFormatHandler Sample.env Sample.healFormat) Sample.cluster)
      = w Sample.cluster ++ [SuccessResponseHeadersOnly].
Proof.
  apply (HealFormat_swap_is_complete Sample.env Sample.cluster
           Sample.healFormat 8%nat).
  vm_compute. do 3 right. left.
Defined.

Lemma HealFormat_needs_erasure_backend_witness :
  run (HealFormatHandler Sample.env Scenarios.healFormatDryRun)
      Scenarios.fsServer
  = write (ErrorResponse ErrNotImplemented) Scenarios.fsServer.
Proof.
  apply (HealFormat_needs_erasure_backend Sample.env Scenarios.fsServer
           Scenarios.healFormatDryRun 1%nat); reflexivity.
Defined.

(** ** The status handlers *)

(** Unfolds the status handlers and their monad down to the two logs. *)
Ltac exec_status :=
  unfold statusHandlers, ServiceStatusHandler, ServerInfoHandler,
    ListBucketsHealHandler, GetConfigHandler, runS, newQueries in *;
  unfold mbind, MS_bind, mret, MS_ret, liftM, query in *;
  unfold_monad;
  branches; events;
  rewrite <- ?app_assoc, ?drop_app_length, ?drop_all in *;
  cbn [app] in *.

Ltac query_members :=
  repeat match goal with
  | H : _ ∈ [] |- _ => by apply elem_of_nil in H
  | H : _ ∈ _ :: _ |- _ => apply elem_of_cons in H as [H | H]
  end;
  repeat match goal with
  | H : @eq Query _ _ |- _ => inversion H; subst; clear H
  end.

(** X18: the status handlers only read.  Each of them writes exactly one
    response, assigns no global, and leaves nothing in the log of the other
    handlers but logged errors.  A request that fails the signature check
    makes no query at all. *)
Theorem status_handlers_only_read (env : Env) (senv : StatusEnv) :
  Forall (λ handler : Request → MS unit,
            ∀ σ qs r,
              sameSettings σ (runS (handler r) σ qs).1 ∧
              globalObjectAPI (runS (handler r) σ qs).1 = globalObjectAPI σ ∧
              onlyErrorLogs (newEvents σ (runS (handler r) σ qs).1) ∧
              (∃ resp, w (runS (handler r) σ qs).1 = w σ ++ [resp]) ∧
              (runS (handler r) σ qs).2
                = qs ++ newQueries qs (runS (handler r) σ qs).2 ∧
              (checkRequestAuthType env (history σ) r ≠ ErrNone →
               (runS (handler r) σ qs).2 = qs))
         (statusHandlers env senv).
Proof.
  unfold statusHandlers. repeat apply Forall_cons_2; try apply Forall_nil_2;
    intros σ qs r; unfold sameSettings, onlyErrorLogs; exec_status;
    repeat split; rewrite ?app_nil_r; try done; try (by eexists);
    by repeat constructor.
Qed.

(** X19: the configuration is read behind the signature check, which comes
    before the look at the engine handle: an unauthenticated request is
    answered the code of the signature check also on a server that is not
    initialised, and no peer is asked.  When the read has no quorum the
    response is the admin no-quorum error; when it succeeds the response
    body is the configuration the peers returned, as it is. *)
Theorem GetConfig_outcomes
    (env : Env) (senv : StatusEnv) (σ : World) (qs : list Query) (r : Request) :
  (checkRequestAuthType env (history σ) r ≠ ErrNone →
   runS (GetConfigHandler env senv r) σ qs
     = (write (ErrorResponse (checkRequestAuthType env (history σ) r)) σ, qs)) ∧
  (∀ peers res,
     QGetPeerConfig peers res
       ∈ newQueries qs (runS (GetConfigHandler env senv r) σ qs).2 →
     peers = globalAdminPeers σ ∧
     newQueries qs (runS (GetConfigHandler env senv r) σ qs).2
       = [QGetPeerConfig peers res] ∧
     w (runS (GetConfigHandler env senv r) σ qs).1
       = w σ ++ [match res with
                 | Ok configBytes => SuccessResponseJSON configBytes
                 | Error errXLWriteQuorum => ErrorResponse ErrAdminConfigNoQuorum
                 | Error err => ErrorResponse (toAPIErrorCode env err)
                 end]).
Proof.
  split.
  - intros Hauth. by exec_status.
  - intros peers res. unfold toAdminAPIErrCode.
    exec_status; intros Hin; query_members; done.
Qed.

Lemma GetConfig_outcomes_witness :
  Sample.threePeers = globalAdminPeers Sample.cluster ∧
  newQueries []
    (runS (GetConfigHandler Sample.env sampleStatusEnv Sample.healFormat)
          Sample.cluster []).2
    = [QGetPeerConfig Sample.threePeers (Error errXLWriteQuorum)] ∧
  w (runS (GetConfigHandler Sample.env sampleStatusEnv Sample.healFormat)
          Sample.cluster []).1
    = w Sample.cluster ++ [ErrorResponse ErrAdminConfigNoQuorum].
Proof.
  apply (proj2 (GetConfig_outcomes Sample.env sampleStatusEnv Sample.cluster []
                  Sample.healFormat)
               Sample.threePeers (Error errXLWriteQuorum)).
  vm_compute. left.
Defined.

(** X20: the uptime of the cluster is read from the peers of the cluster.
    When the read fails, service status and server information answer that
    error and make no further query.  When it succeeds, the service status
    carries the build version and that uptime. *)
Theorem uptime_quorum_decides_status
    (env : Env) (senv : StatusEnv) (σ : World) (qs : list Query) (r : Request) :
  (∀ handler,
     handler = ServiceStatusHandler env senv ∨
     handler = ServerInfoHandler env senv →
     ∀ peers err,
       QGetPeerUptimes peers (Error err)
         ∈ newQueries qs (runS (handler r) σ qs).2 →
       peers = globalAdminPeers σ ∧
       last (runS (handler r) σ qs).2 = Some (QGetPeerUptimes peers (Error err)) ∧
       w (runS (handler r) σ qs).1
         = w σ ++ [ErrorResponse (toAPIErrorCode env err)]) ∧
  (∀ peers uptime,
     QGetPeerUptimes peers (Ok uptime)
       ∈ newQueries qs (runS (ServiceStatusHandler env senv r) σ qs).2 →
     w (runS (ServiceStatusHandler env senv r) σ qs).1
       = w σ ++ [match json_MarshalStatus senv
                         {| serverVersion := buildVersion senv;
                            statusUptime := uptime |} with
                 | Ok jsonBytes => SuccessResponseJSON jsonBytes
                 | Error _ => ErrorResponse ErrInternalError
                 end]).
Proof.
  split.
  - intros handler [-> | ->] peers err; exec_status; intros Hin;
      query_members; try done;
      (split; [done |]); (split; [| done]);
      by rewrite last_app.
  - intros peers uptime. destruct (buildVersion senv) eqn:Hversion.
    exec_status; intros Hin; query_members; try done.
    all: rewrite Hversion in *; simpl in *; congruence.
Qed.

Lemma uptime_quorum_decides_status_witness :
  Sample.fivePeers = globalAdminPeers Sample.degradedCluster ∧
  last (runS (ServerInfoHandler Sample.env
                (mkStatusEnv (buildVersion sampleStatusEnv)
                   (json_MarshalStatus sampleStatusEnv)
                   (json_MarshalInfo sampleStatusEnv)
                   (encodeListBucketsResponse sampleStatusEnv)
                   (λ _ _ _, Error Sample.errUnreachable)
                   (doStorageInfo sampleStatusEnv)
                   (doGetAllExternalTargets sampleStatusEnv)
                   (doGetRegion sampleStatusEnv)
                   (doGetTotalInputBytes sampleStatusEnv)
                   (doGetTotalOutputBytes sampleStatusEnv)
                   (doListBucketsHeal sampleStatusEnv)
                   (doGetPeerConfig sampleStatusEnv))
                Sample.healFormat)
             Sample.degradedCluster []).2
    = Some (QGetPeerUptimes Sample.fivePeers (Error Sample.errUnreachable)) ∧
  w (runS (ServerInfoHandler Sample.env
             (mkStatusEnv (buildVersion sampleStatusEnv)
                (json_MarshalStatus sampleStatusEnv)
                (json_MarshalInfo sampleStatusEnv)
                (encodeListBucketsResponse sampleStatusEnv)
                (λ _ _ _, Error Sample.errUnreachable)
                (doStorageInfo sampleStatusEnv)
                (doGetAllExternalTargets sampleStatusEnv)
                (doGetRegion sampleStatusEnv)
                (doGetTotalInputBytes sampleStatusEnv)
                (doGetTotalOutputBytes sampleStatusEnv)
                (doListBucketsHeal sampleStatusEnv)
                (doGetPeerConfig sampleStatusEnv))
             Sample.healFormat)
          Sample.degradedCluster []).1
    = w Sample.degradedCluster
      ++ [ErrorResponse (toAPIErrorCode Sample.env Sample.errUnreachable)].
Proof.
  apply (proj1 (uptime_quorum_decides_status Sample.env _ Sample.degradedCluster
                  [] Sample.healFormat)
               _ (or_intror eq_refl)
               Sample.fivePeers Sample.errUnreachable).
  vm_compute. do 2 right. left.
Defined.

(** ** Command suggestions *)

Section Search.
Import ClosestCommands.

Lemma midpoint_between (i j : nat) :
  (i < j)%nat → (i ≤ (i + j) / 2)%nat ∧ ((i + j) / 2 < j)%nat.
Proof.
  intros Hlt. split.
  - apply Nat.div_le_lower_bound; lia.
  - apply Nat.Div0.div_lt_upper_bound; lia.
Qed.

Lemma searchLoop_S (fuel : nat) (f : nat → bool) (i j : nat) :
  searchLoop (S fuel) f i j
  = if bool_decide (i < j)%nat then
      if negb (f ((i + j) / 2)%nat)
      then searchLoop fuel f ((i + j) / 2 + 1)%nat j
      else searchLoop fuel f i ((i + j) / 2)%nat
    else i.
Proof. reflexivity. Qed.

(** The search loop on a predicate that, once true, stays true up to [n]. *)
Lemma searchLoop_spec (f : nat → bool) (n : nat) :
  (∀ k l, (k ≤ l)%nat → (l < n)%nat → f k = true → f l = true) →
  ∀ fuel i j,
    (j - i ≤ fuel)%nat → (i ≤ j)%nat → (j ≤ n)%nat →
    (∀ k, (k < i)%nat → f k = false) →
    (∀ k, (j ≤ k)%nat → (k < n)%nat → f k = true) →
    (i ≤ searchLoop fuel f i j)%nat ∧ (searchLoop fuel f i j ≤ j)%nat ∧
    (∀ k, (k < searchLoop fuel f i j)%nat → f k = false) ∧
    (∀ k, (searchLoop fuel f i j ≤ k)%nat → (k < n)%nat → f k = true).
Proof.
  intros Hmono. induction fuel as [| fuel IH]; intros i j Hfuel Hij Hjn Hlow Hhigh.
  - simpl. assert (i = j) as -> by lia. done.
  - rewrite searchLoop_S. case_bool_decide as Hlt.
    + destruct (midpoint_between i j Hlt) as [Hlo Hhi].
      destruct (f ((i + j) / 2)%nat) eqn:Hmid; cbn [negb].
      * destruct (IH i ((i + j) / 2)%nat) as (? & ? & ? & ?); try lia; try done.
        { intros k Hk Hkn. by apply (Hmono ((i + j) / 2)%nat k). }
        repeat split; try done; lia.
      * destruct (IH ((i + j) / 2 + 1)%nat j) as (? & ? & ? & ?);
          try lia; try done.
        { intros k Hk. destruct (f k) eqn:Hfk; [| done].
          rewrite <- Hmid. symmetry.
          apply (Hmono k ((i + j) / 2)%nat); [lia | lia | done]. }
        repeat split; try done; lia.
    + assert (i = j) as -> by lia. done.
Qed.

Lemma StronglySorted_lookup_le (a : list string) (k l : nat) (s t : string) :
  StronglySorted String.le a → (k ≤ l)%nat →
  a !! k = Some s → a !! l = Some t → String.le s t.
Proof.
  intros Hsorted. revert k l.
  induction Hsorted as [| y a Hsorted IH Hall]; intros k l Hkl Hk Hl; [done |].
  destruct k as [| k], l as [| l]; simpl in *; simplify_eq.
  - reflexivity.
  - rewrite Forall_forall in Hall. apply Hall.
    apply list_elem_of_lookup. by exists l.
  - lia.
  - apply (IH k l); [lia | done | done].
Qed.

(** On a sorted slice the search is below the length exactly when some
    element is at or above the string looked for. *)
Lemma SearchStrings_lt_length (a : list string) (x : string) :
  StronglySorted String.le a →
  (SearchStrings a x < length a)%nat ↔ ∃ y, y ∈ a ∧ String.le x y.
Proof.
  intros Hsorted. unfold SearchStrings, Search.
  set (f := λ i : nat, match a !! i with
                       | Some s => bool_decide (String.le x s)
                       | None => false
                       end).
  assert (∀ k s, a !! k = Some s → f k = bool_decide (String.le x s)) as Hf.
  { intros k s Hk. unfold f. by rewrite Hk. }
  assert (∀ k, a !! k = None → f k = false) as Hf_out.
  { intros k Hk. unfold f. by rewrite Hk. }
  clearbody f.
  destruct (searchLoop_spec f (length a)) with (fuel := length a)
    (i := 0%nat) (j := length a) as (_ & _ & Hbelow & Habove);
    try lia.
  - intros k l Hkl Hl.
    destruct (a !! k) as [s |] eqn:Hk; [| by rewrite Hf_out].
    destruct (lookup_lt_is_Some_2 a l Hl) as [t Ht].
    rewrite (Hf k s Hk), (Hf l t Ht), !bool_decide_eq_true.
    intros Hxs. etrans; [exact Hxs |].
    by apply (StronglySorted_lookup_le a k l).
  - split.
    + intros Hlt. destruct (lookup_lt_is_Some_2 a _ Hlt) as [y Hy].
      exists y. split; [apply list_elem_of_lookup; by eexists |].
      specialize (Habove _ (le_n _) Hlt).
      rewrite (Hf _ y Hy) in Habove. by apply bool_decide_eq_true in Habove.
    + intros (y & Hin & Hxy). apply list_elem_of_lookup in Hin as [k Hk].
      destruct (decide (searchLoop (length a) f 0 (length a) ≤ k)%nat)
        as [Hle | Hgt].
      * apply lookup_lt_Some in Hk. lia.
      * assert (f k = false) as Hfk by (apply Hbelow; lia).
        rewrite (Hf k y Hk) in Hfk.
        by apply bool_decide_eq_false in Hfk.
Qed.

End Search.

Section Suggestions.
Import ClosestCommands.
Context (PrefixMatch : string → list string) (Walk : list string)
        (DamerauLevenshteinDistance : string → string → Z).

Lemma foldl_snoc (l acc : list string) :
  foldl (λ closestCommands value, closestCommands ++ [value]) acc l = acc ++ l.
Proof.
  revert acc. induction l as [| x l IH]; intros acc; simpl.
  - by rewrite app_nil_r.
  - by rewrite IH, <- app_assoc.
Qed.

(** What the second loop adds to a sorted slice. *)
Lemma foldl_suggest (command : string) (walk acc : list string) :
  StronglySorted String.le acc →
  ∃ extras,
    foldl (suggest DamerauLevenshteinDistance command) acc walk = acc ++ extras ∧
    StronglySorted String.le (acc ++ extras) ∧
    (NoDup acc → NoDup (acc ++ extras)) ∧
    extras `sublist_of` walk ∧
    Forall (λ value, DamerauLevenshteinDistance command value < 2) extras ∧
    (∀ value y, value ∈ extras → y ∈ acc → ¬ String.le value y).
Proof.
  revert acc. induction walk as [| value walk IH]; intros acc Hsorted; simpl.
  - exists []. rewrite app_nil_r.
    split; [done |]. split; [done |]. split; [done |].
    split; [constructor |]. split; [constructor |].
    intros value y Hin. by apply elem_of_nil in Hin.
  - unfold suggest at 2. case_bool_decide as Hsearch.
    { destruct (IH acc Hsorted) as (extras & ? & ? & ? & ? & ? & ?).
      exists extras. repeat split; try done. by constructor. }
    case_bool_decide as Hnear.
    2: { destruct (IH acc Hsorted) as (extras & ? & ? & ? & ? & ? & ?).
         exists extras. repeat split; try done. by constructor. }
    assert (∀ y, y ∈ acc → ¬ String.le value y) as Habove.
    { intros y Hin Hle. apply Hsearch.
      apply SearchStrings_lt_length; [done | by exists y]. }
    assert (StronglySorted String.le (acc ++ [value])) as Hsorted'.
    { apply StronglySorted_app_2; [| done | repeat constructor].
      intros y v Hy Hv. apply list_elem_of_singleton in Hv as ->.
      destruct (total String.le y value) as [? | Hle]; [done |].
      by destruct (Habove y Hy). }
    destruct (IH (acc ++ [value]) Hsorted')
      as (extras & Hfold & Hs & Hnodup & Hsub & Hall & Hgt).
    exists (value :: extras). rewrite <- app_assoc in Hfold, Hs, Hnodup.
    repeat split; try done.
    + intros Hacc. apply Hnodup. apply NoDup_app. repeat split; try done.
      * intros y Hy Hv. apply list_elem_of_singleton in Hv as ->.
        by apply (Habove value Hy).
      * apply NoDup_singleton.
    + by constructor.
    + by constructor.
    + intros v y Hv Hy. apply elem_of_cons in Hv as [-> | Hv].
      * by apply Habove.
      * apply Hgt; [done |]. apply elem_of_app. by left.
Qed.

(** X21: the suggestions come out in increasing order: the slice stays
    sorted through the second loop, because a command is appended only when
    the binary search finds every collected command below it.  When the
    prefix matches of the tree are distinct, no command is suggested
    twice. *)
Theorem findClosestCommands_sorted (command : string) :
  StronglySorted String.le
    (findClosestCommands PrefixMatch Walk DamerauLevenshteinDistance command) ∧
  (NoDup (PrefixMatch command) →
   NoDup (findClosestCommands PrefixMatch Walk DamerauLevenshteinDistance
            command)).
Proof.
  unfold findClosestCommands. rewrite foldl_snoc. simpl.
  assert (StronglySorted String.le (sortStrings (PrefixMatch command)))
    as Hsorted by apply (StronglySorted_merge_sort String.le).
  destruct (foldl_suggest command Walk _ Hsorted)
    as (extras & -> & ? & Hnodup & _).
  split; [done |]. intros Hpm. apply Hnodup.
  unfold sortStrings. by rewrite merge_sort_Permutation.
Qed.

(** X22: the suggestions are the prefix matches of the command, sorted,
    followed by commands of the tree in the order of the walk, each within
    edit distance 1 of the command and sorting after every prefix match.  A
    near miss that sorts at or before a prefix match is not added. *)
Theorem findClosestCommands_structure (command : string) :
  ∃ extras,
    findClosestCommands PrefixMatch Walk DamerauLevenshteinDistance command
      = sortStrings (PrefixMatch command) ++ extras ∧
    sortStrings (PrefixMatch command) ≡ₚ PrefixMatch command ∧
    extras `sublist_of` Walk ∧
    Forall (λ value, DamerauLevenshteinDistance command value < 2) extras ∧
    (∀ value match_, value ∈ extras → match_ ∈ PrefixMatch command →
                     ¬ String.le value match_).
Proof.
  unfold findClosestCommands. rewrite foldl_snoc. simpl.
  assert (StronglySorted String.le (sortStrings (PrefixMatch command)))
    as Hsorted by apply (StronglySorted_merge_sort String.le).
  destruct (foldl_suggest command Walk _ Hsorted)
    as (extras & -> & _ & _ & Hsub & Hall & Hgt).
  exists extras. repeat split; try done.
  - apply merge_sort_Permutation.
  - intros value match_ Hv Hm. apply Hgt; [done |].
    unfold sortStrings. by rewrite merge_sort_Permutation.
Qed.

Lemma foldl_suggest_nil (command : string) (walk acc : list string) :
  foldl (suggest DamerauLevenshteinDistance command) acc walk = [] ↔
  acc = [] ∧
  Forall (λ value, ¬ DamerauLevenshteinDistance command value < 2) walk.
Proof.
  revert acc. induction walk as [| value walk IH]; intros acc; simpl.
  - split; [by intros -> | by intros [-> _]].
  - rewrite IH. unfold suggest. split.
    + intros [Hacc Hall]. case_bool_decide as Hsearch.
      { rewrite Hacc in Hsearch. simpl in Hsearch. lia. }
      case_bool_decide as Hnear; [by destruct acc |].
      split; [done |]. by constructor.
    + intros [-> Hall]. apply Forall_cons in Hall as [Hfar Hall].
      split; [| done]. simpl. by repeat case_bool_decide.
Qed.

(** X23: there is nothing to suggest exactly when the tree has no command
    with the typed command as a prefix and no command within edit distance
    1 of it; this is the case in which the not-found message carries no
    list of suggestions. *)
Theorem findClosestCommands_nil (command : string) :
  findClosestCommands PrefixMatch Walk DamerauLevenshteinDistance command = []
  ↔ PrefixMatch command = [] ∧
    Forall (λ value, ¬ DamerauLevenshteinDistance command value < 2) Walk.
Proof.
  unfold findClosestCommands. rewrite foldl_snoc. simpl.
  rewrite foldl_suggest_nil. unfold sortStrings. split.
  - intros [Hsort Hall]. split; [| done].
    apply Permutation_nil_r. rewrite <- Hsort.
    symmetry. apply merge_sort_Permutation.
  - intros [-> Hall]. done.
Qed.

End Suggestions.

Example findClosestCommands_samples :
  ClosestCommands.findClosestCommands ClosestCommands.samplePrefixMatch
    ClosestCommands.sampleWalk ClosestCommands.mismatches "ver" = ["version"] ∧
  ClosestCommands.findClosestCommands ClosestCommands.samplePrefixMatch
    ClosestCommands.sampleWalk ClosestCommands.mismatches "updata" = ["update"] ∧
  ClosestCommands.findClosestCommands ClosestCommands.samplePrefixMatch
    ClosestCommands.sampleWalk ClosestCommands.mismatches "start" = [].
Proof. repeat split. Qed.

(** ** Start-up *)

Section StartupProofs.
Import Startup.

(** Runs a start-up computation on every path. *)
Ltac exec_boot :=
  unfold minioInit, initConfig, migrate, enableLoggers, newSteps in *;
  unfold mbind, P_bind, mret, P_ret, step, setIsSSL in *;
  simpl in *; branches;
  repeat match goal with
  | H : negb ?b = _ |- _ => destruct b; simplify_eq/=
  | u : unit |- _ => destruct u
  end;
  cbn [steps globalIsSSL record] in *;
  rewrite <- ?app_assoc, ?drop_app_length in *; cbn [app] in *;
  repeat match goal with
  | H : ?t = Some _ |- context [?t] => rewrite H
  | H : ?t = None |- context [?t] => rewrite H
  end.

(** Splits on the answer of the call a path ends with. *)
Ltac last_answer :=
  repeat match goal with
  | |- context [doPrintln ?e ?h ?m] =>
      destruct (doPrintln e h m) as [[] |] eqn:?
  | |- context [doFatalf ?e ?h ?f ?x] =>
      destruct (doFatalf e h f x) as [[] |] eqn:?
  | |- context [doInitError ?e ?h] =>
      destruct (doInitError e h) as [[] |] eqn:?
  end.

(** Finds an element in an explicit list. *)
Ltac in_list :=
  solve [repeat first [apply list_elem_of_here | apply list_elem_of_further]].

Ltac step_members :=
  repeat match goal with
  | H : _ ∈ [] |- _ => by apply elem_of_nil in H
  | H : _ ∈ _ :: _ |- _ => apply elem_of_cons in H as [H | H]
  end;
  repeat match goal with
  | H : @eq Step _ _ |- _ => inversion H; subst; clear H
  end.

(** X24: the paths of [initConfig].  A configuration is created only after
    the existence test answered no, with the credentials and the browser
    setting read from the environment, and then nothing is migrated or
    loaded.  A configuration is loaded only after the existence test answered
    yes and after both the migration and the [fatalIf] on its result
    returned, and then nothing is created.  [console.Fatalf] is called only
    with the error of a failed creation or load.  The function returns
    exactly when every call it made returned, and it leaves the TLS flag
    alone. *)
Theorem initConfig_paths (env : BootEnv) (s : Boot) :
  (∀ envs res,
     SNewConfig envs res ∈ newSteps s (initConfig env s).2 →
     take 4 (newSteps s (initConfig env s).2)
       = [SMustGetCredentialFromEnv (Some (creds envs));
          SMustGetBrowserFromEnv (Some (browser envs));
          SIsConfigFileExists (Some false);
          SNewConfig envs res] ∧
     (∀ r, SMigrateConfig r ∉ newSteps s (initConfig env s).2) ∧
     (∀ e r, SLoadConfig e r ∉ newSteps s (initConfig env s).2)) ∧
  (∀ envs res,
     SLoadConfig envs res ∈ newSteps s (initConfig env s).2 →
     (∃ err,
        take 6 (newSteps s (initConfig env s).2)
          = [SMustGetCredentialFromEnv (Some (creds envs));
             SMustGetBrowserFromEnv (Some (browser envs));
             SIsConfigFileExists (Some true);
             SMigrateConfig (Some err);
             SFatalIf err "Config migration failed." (Some tt);
             SLoadConfig envs res]) ∧
     (∀ e r, SNewConfig e r ∉ newSteps s (initConfig env s).2)) ∧
  (∀ format err res,
     SFatalf format err res ∈ newSteps s (initConfig env s).2 →
     (format = createFailed ∧
      ∃ envs, SNewConfig envs (Some (Some err))
                ∈ newSteps s (initConfig env s).2) ∨
     (format = loadFailed ∧
      ∃ envs, SLoadConfig envs (Some (Some err))
                ∈ newSteps s (initConfig env s).2)) ∧
  ((initConfig env s).1 = Some tt
   ↔ Forall (λ st, returned st = true) (newSteps s (initConfig env s).2)) ∧
  globalIsSSL (initConfig env s).2 = globalIsSSL s.
Proof.
  split; [| split; [| split; [| split]]].
  - intros envs res. exec_boot; intros Hin; step_members;
      (split; [done |]); split; intros; intros Hin; by step_members.
  - intros envs res. exec_boot; intros Hin; step_members;
      (split; [by eexists |]); intros; intros Hin; by step_members.
  - intros format err res. exec_boot; intros Hin; step_members.
    all: first
      [ left; split; [done |]; eexists; do 3 right; left
      | right; split; [done |]; eexists; do 5 right; left ].
  - exec_boot; last_answer; (split; [intros ? | intros Hall]); try done.
    all: try by repeat constructor.
    all: repeat match goal with
         | H : Forall _ (_ :: _) |- _ =>
             apply Forall_cons in H as [? H]; simpl in *
         end; by branches.
  - by exec_boot.
Qed.

Lemma initConfig_extends (env : BootEnv) (s : Boot) :
  steps (initConfig env s).2 = steps s ++ newSteps s (initConfig env s).2.
Proof. by exec_boot. Qed.

Lemma initConfig_no_logger (env : BootEnv) (s : Boot) r :
  SEnableConsoleLogger r ∉ newSteps s (initConfig env s).2.
Proof. exec_boot; intros Hin; by step_members. Qed.

Lemma minioInit_unfold (env : BootEnv) (s : Boot) :
  minioInit env s
  = match doIsSSL env (steps s) with
    | None => (None, record (SIsSSL None) s)
    | Some b =>
        match initConfig env (mkBoot b (steps s ++ [SIsSSL (Some b)])) with
        | (Some _, s2) =>
            (enableLoggers env;; step (doInitError env) SInitError) s2
        | (None, s2) => (None, s2)
        end
    end.
Proof.
  unfold minioInit, mbind, P_bind, step, setIsSSL, record. simpl.
  by destruct (doIsSSL env (steps s)).
Qed.

(** X25: the order of [minioInit].  The TLS test is the first call and its
    answer is stored in the global flag.  The console logger is enabled only
    after [initConfig] returned, the file logger only after the console
    logger, and error tracing is initialised only after both.  The function
    returns exactly when every call it made returned. *)
Theorem minioInit_order (env : BootEnv) (s : Boot) :
  head (newSteps s (minioInit env s).2) = Some (SIsSSL (doIsSSL env (steps s))) ∧
  globalIsSSL (minioInit env s).2
    = default (globalIsSSL s) (doIsSSL env (steps s)) ∧
  (∀ r,
     SEnableConsoleLogger r ∈ newSteps s (minioInit env s).2 →
     ∃ b rest,
       (initConfig env (mkBoot b (steps s ++ [SIsSSL (Some b)]))).1
         = Some tt ∧
       newSteps s (minioInit env s).2
         = SIsSSL (Some b)
           :: newSteps (mkBoot b (steps s ++ [SIsSSL (Some b)]))
                (initConfig env (mkBoot b (steps s ++ [SIsSSL (Some b)]))).2
           ++ SEnableConsoleLogger r :: rest) ∧
  (∀ r,
     SEnableFileLogger r ∈ newSteps s (minioInit env s).2 →
     SEnableConsoleLogger (Some tt) ∈ newSteps s (minioInit env s).2) ∧
  (∀ r,
     SInitError r ∈ newSteps s (minioInit env s).2 →
     SEnableFileLogger (Some tt) ∈ newSteps s (minioInit env s).2) ∧
  ((minioInit env s).1 = Some tt
   ↔ Forall (λ st, returned st = true) (newSteps s (minioInit env s).2)).
Proof.
  split; [| split; [| split; [| split; [| split]]]].
  - by exec_boot.
  - by exec_boot.
  - intros r. rewrite minioInit_unfold.
    destruct (doIsSSL env (steps s)) as [b |] eqn:Hssl.
    2: { unfold newSteps. simpl. rewrite drop_app_length.
         intros Hin. by step_members. }
    intros Hin. exists b.
    pose proof (initConfig_extends env
                  (mkBoot b (steps s ++ [SIsSSL (Some b)]))) as Hext.
    pose proof (initConfig_no_logger env
                  (mkBoot b (steps s ++ [SIsSSL (Some b)]))) as Hlog.
    destruct (initConfig env (mkBoot b (steps s ++ [SIsSSL (Some b)])))
      as [[[] |] s2]; simpl in *.
    + set (new := newSteps (mkBoot _ _) s2) in *. clearbody new. revert Hin.
      unfold enableLoggers, mbind, P_bind, step, newSteps, record. simpl.
      branches; simpl; rewrite ?Hext, <- ?app_assoc, drop_app_length; simpl;
        intros Hin.
      all: apply elem_of_cons in Hin as [| Hin]; [done |].
      all: apply elem_of_app in Hin as [Hin | Hin]; [by apply Hlog in Hin |].
      all: step_members; eexists; split; reflexivity.
    + set (new := newSteps (mkBoot _ _) s2) in *. clearbody new. revert Hin.
      unfold newSteps. simpl. rewrite Hext, <- app_assoc, drop_app_length.
      simpl. intros Hin. apply elem_of_cons in Hin as [| Hin]; [done |].
      by apply Hlog in Hin.
  - intros r. exec_boot; intros Hin; step_members.
    all: in_list.
  - intros r. exec_boot; intros Hin; step_members.
    all: in_list.
  - exec_boot; last_answer; (split; [intros ? | intros Hall]); try done.
    all: try by repeat constructor.
    all: repeat match goal with
         | H : Forall _ (_ :: _) |- _ =>
             apply Forall_cons in H as [? H]; simpl in *
         end; by branches.
Qed.

(** X26: when [fatalIf] on an error and [console.Fatalf] end the process, a
    start never goes on with a configuration that failed.  A load is
    attempted only after a migration without an error, the creation message
    is printed only after a creation without an error, [initConfig] returns
    only with the configuration created or migrated and loaded without an
    error, [minioInit] enables a logger only then, and a [console.Fatalf] is
    the last call of the process. *)
Theorem startup_needs_config (env : BootEnv) (s : Boot)
    (Hexit : fatalExits env) :
  (∀ envs res,
     SLoadConfig envs res ∈ newSteps s (initConfig env s).2 →
     SMigrateConfig (Some None) ∈ newSteps s (initConfig env s).2) ∧
  (∀ msg res,
     SPrintln msg res ∈ newSteps s (initConfig env s).2 →
     ∃ envs, SNewConfig envs (Some None) ∈ newSteps s (initConfig env s).2) ∧
  ((initConfig env s).1 = Some tt →
   configReady (newSteps s (initConfig env s).2)) ∧
  (∀ r,
     SEnableConsoleLogger r ∈ newSteps s (minioInit env s).2 →
     configReady (newSteps s (minioInit env s).2)) ∧
  (∀ format err res,
     SFatalf format err res ∈ newSteps s (minioInit env s).2 →
     (minioInit env s).1 = None ∧
     last (steps (minioInit env s).2) = Some (SFatalf format err None)).
Proof.
  destruct Hexit as [HfatalIf Hfatalf].
  assert (Hif : ∀ h err msg, doFatalIf env h err msg = Some tt → err = None).
  { intros h [err |] msg Hret; [| done]. by rewrite HfatalIf in Hret. }
  assert (Hf : ∀ h format err, doFatalf env h format err = Some tt → False).
  { intros h format err Hret. by rewrite Hfatalf in Hret. }
  split; [| split; [| split; [| split]]].
  - intros envs res. exec_boot; intros Hin; step_members.
    all: match goal with
         | H : doFatalIf _ _ _ _ = Some _ |- _ => apply Hif in H as ->
         end.
    all: in_list.
  - intros msg res. exec_boot; intros Hin; step_members.
    all: try match goal with
         | H : doFatalf _ _ _ _ = Some _ |- _ => by apply Hf in H
         end.
    all: eexists;
      in_list.
  - exec_boot; intros Hret; try done.
    all: try match goal with
         | H : doFatalf _ _ _ _ = Some _ |- _ => by apply Hf in H
         end.
    all: repeat match goal with
         | H : doFatalIf _ _ _ _ = Some _ |- _ => apply Hif in H as ->
         end.
    + left. eexists. in_list.
    + right. split; [| eexists]; in_list.
  - intros r. exec_boot; intros Hin; step_members.
    all: try match goal with
         | H : doFatalf _ _ _ _ = Some _ |- _ => by apply Hf in H
         end.
    all: repeat match goal with
         | H : doFatalIf _ _ _ _ = Some _ |- _ => apply Hif in H as ->
         end.
    all: first
      [ left; eexists;
        in_list
      | right; split; [| eexists];
        in_list ].
  - intros format err res. exec_boot; intros Hin; step_members.
    all: try match goal with
         | H : doFatalf _ _ _ _ = Some _ |- _ => by apply Hf in H
         end.
    all: rewrite ?Hfatalf in *; try done.
    all: split; [done |]; by rewrite last_app.
Qed.

Lemma startup_needs_config_witness :
  fatalExits firstStart ∧
  configReady (newSteps cold (minioInit firstStart cold).2).
Proof.
  assert (Hexit : fatalExits firstStart) by (split; intros; reflexivity).
  split; [exact Hexit |].
  apply (proj1 (proj2 (proj2 (proj2
           (startup_needs_config firstStart cold Hexit)))) (Some tt)).
  vm_compute.
  in_list.
Defined.

Example minioInit_samples :
  (minioInit firstStart cold).1 = Some tt ∧
  newSteps cold (minioInit firstStart cold).2
    = [SIsSSL (Some false);
       SMustGetCredentialFromEnv
         (Some {| AccessKey := "minio"; SecretKey := "minio123" |});
       SMustGetBrowserFromEnv (Some "on");
       SIsConfigFileExists (Some false);
       SNewConfig
         {| creds := {| AccessKey := "minio"; SecretKey := "minio123" |};
            browser := "on" |} (Some None);
       SGetConfigDir (Some "/root/.minio");
       SPrintln
         "Created minio configuration file successfully at /root/.minio"
         (Some tt);
       SEnableConsoleLogger (Some tt); SEnableFileLogger (Some tt);
       SInitError (Some tt)] ∧
  (minioInit brokenMigration cold).1 = None ∧
  globalIsSSL (minioInit brokenMigration cold).2 = true ∧
  last (steps (minioInit brokenMigration cold).2)
    = Some (SFatalIf (Some (errorString "unknown config version"))
              "Config migration failed." None).
Proof. by vm_compute. Qed.

End StartupProofs.
